(** * Symbolic expressions: construction, postorder visitor and differentiation

    A shallow embedding of [expressions/expressions.py].

    Python objects are mutable heap cells with an identity.  The module never
    mutates a node after its constructor has returned, so a node is modelled
    as an immutable value that carries its identity explicitly: the [id]
    field of [PyObj] plays the role of Python's [id(obj)].  Two occurrences of
    a node in a graph denote the same object exactly when they carry the same
    identity; a shared subexpression is a sub-value that occurs under several
    parents with one identity.  Object allocation threads a counter of fresh
    identities through a small state-and-exception monad. *)

From Stdlib Require Import ZArith.
From stdpp Require Import base list strings gmap.

(** ** Python values *)

(** Identity of a Python object. *)
Definition ident := nat.

(** Host numbers, the instances of [numbers.Number].  Only the payload is
    kept: floats and complex numbers are carried as their bit patterns,
    decimals as their digits, and no host arithmetic is performed on any of
    them anywhere in the module. *)
Inductive num :=
| NInt (z : Z)
| NBool (b : bool)
| NFloat (bits : Z)
| NComplex (re_bits im_bits : Z)
| NFraction (numerator denominator : Z)
| NDecimal (digits : string).

(** The class of an object.  [Number] and [Symbol] carry their [value]
    attribute; [KOther name] stands for every class that is not one of the
    seven below and does not derive from one of them ([Expression],
    [Terminal], [Operator] themselves, or a caller-defined subclass of
    these), [name] being its [__name__]. *)
Inductive kind :=
| KNumber (value : num)
| KSymbol (value : string)
| KAdd | KSub | KMul | KDiv | KPow
| KOther (name : string).

(** The values that reach the module: host numbers, text, [None], and
    [Expression] objects with their identity, class and [operands] tuple. *)
#[local] Unset Elimination Schemes.
Inductive pyval :=
| PyNum (n : num)
| PyStr (s : string)
| PyNone
| PyObj (id : ident) (cls : kind) (operands : list pyval).
#[local] Set Elimination Schemes.

(** Keyword arguments, a [dict] from names to values. *)
Abbreviation kwargs := (gmap string pyval).

Inductive exn :=
| TypeError
| AttributeError
| IndexError
| KeyError
| RecursionError
| ValueError
| OverflowError
| NotImplementedError (msg : string)
| Exception (msg : string).

(** Result of a call: a value, or a raised exception. *)
Inductive result (A : Type) :=
| Ok (a : A)
| Raise (e : exn).
Arguments Ok {A} a.
Arguments Raise {A} e.

(** ** State-and-exception monad

    A computation reads and updates a state and either returns or raises;
    updates made before a raise persist. *)
Definition M (St A : Type) : Type := St → result A * St.

Definition ret {St A} (a : A) : M St A := λ s, (Ok a, s).

Definition raise {St A} (e : exn) : M St A := λ s, (Raise e, s).

Definition bind {St A B} (m : M St A) (f : A → M St B) : M St B :=
  λ s, match m s with
       | (Ok a, s') => f a s'
       | (Raise e, s') => (Raise e, s')
       end.

#[global] Instance M_ret {St} : MRet (M St) := @ret St.
#[global] Instance M_bind {St} : MBind (M St) := λ A B f m, bind m f.

(** Allocation of a new object: the next unused identity. *)
Definition fresh : M nat ident := λ n, (Ok n, S n).

(** ** Attribute access and builtins *)

Definition isinstance_Num (x : pyval) : bool :=
  match x with PyNum _ => true | _ => false end.

Definition isinstance_str (x : pyval) : bool :=
  match x with PyStr _ => true | _ => false end.

Definition isinstance_Expression (x : pyval) : bool :=
  match x with PyObj _ _ _ => true | _ => false end.

(** [type(x).__name__] *)
Definition type_name (x : pyval) : string :=
  match x with
  | PyNum (NInt _) => "int"
  | PyNum (NBool _) => "bool"
  | PyNum (NFloat _) => "float"
  | PyNum (NComplex _ _) => "complex"
  | PyNum (NFraction _ _) => "Fraction"
  | PyNum (NDecimal _) => "Decimal"
  | PyStr _ => "str"
  | PyNone => "NoneType"
  | PyObj _ (KNumber _) _ => "Number"
  | PyObj _ (KSymbol _) _ => "Symbol"
  | PyObj _ KAdd _ => "Add"
  | PyObj _ KSub _ => "Sub"
  | PyObj _ KMul _ => "Mul"
  | PyObj _ KDiv _ => "Div"
  | PyObj _ KPow _ => "Pow"
  | PyObj _ (KOther name) _ => name
  end.

(** [x.operands]; host values have no such attribute. *)
Definition getattr_operands {St} (x : pyval) : M St (list pyval) :=
  match x with
  | PyObj _ _ operands => ret operands
  | _ => raise AttributeError
  end.

(** [t[i]] on a tuple. *)
Definition getitem {St A} (t : list A) (i : nat) : M St A :=
  match t !! i with
  | Some x => ret x
  | None => raise IndexError
  end.

(** [value == var] where [value] is the text held by a [Symbol]: text is
    equal only to the same text. *)
Definition str_eq (value : string) (var : pyval) : bool :=
  match var with
  | PyStr s => bool_decide (value = s)
  | _ => false
  end.

(** ** Constructors *)

(** [Number(value)]: lines 59-65. *)
Definition Number (value : pyval) : M nat pyval :=
  self ← fresh ;
  match value with
  | PyNum n => ret (PyObj self (KNumber n) [])
  | _ => raise TypeError
  end.

(** [Symbol(value)]: lines 68-74. *)
Definition Symbol (value : pyval) : M nat pyval :=
  self ← fresh ;
  match value with
  | PyStr s => ret (PyObj self (KSymbol s) [])
  | _ => raise TypeError
  end.

(** [Expression.__init__(self, *operands)], lines 6-12: the loop that boxes
    every host number and leaves every other value as it is. *)
Fixpoint Expression_init (operands : list pyval) : M nat (list pyval) :=
  match operands with
  | [] => ret []
  | x :: rest =>
      x' ← (if isinstance_Num x then Number x else ret x) ;
      l ← Expression_init rest ;
      ret (x' :: l)
  end.

(** Call of an operator class on a tuple of operands.  The operator classes
    inherit [Expression.__init__], which accepts any number of operands. *)
Definition new_operator (cls : kind) (operands : list pyval) : M nat pyval :=
  self ← fresh ;
  l ← Expression_init operands ;
  ret (PyObj self cls l).

Definition Add := new_operator KAdd.
Definition Sub := new_operator KSub.
Definition Mul := new_operator KMul.
Definition Div := new_operator KDiv.
Definition Pow := new_operator KPow.

(** ** Arithmetic composition *)

Inductive binop := OpAdd | OpSub | OpMul | OpDiv | OpPow.

Definition binop_kind (op : binop) : kind :=
  match op with
  | OpAdd => KAdd | OpSub => KSub | OpMul => KMul | OpDiv => KDiv
  | OpPow => KPow
  end.

(** The operator methods of [Expression], lines 14-42. *)
Definition __add__ (self other : pyval) : M nat pyval := Add [self; other].
Definition __sub__ (self other : pyval) : M nat pyval := Sub [self; other].
Definition __mul__ (self other : pyval) : M nat pyval := Mul [self; other].
Definition __truediv__ (self other : pyval) : M nat pyval := Div [self; other].
Definition __pow__ (self other : pyval) : M nat pyval := Pow [self; other].
Definition __radd__ (self other : pyval) : M nat pyval := Add [other; self].
Definition __rsub__ (self other : pyval) : M nat pyval := Sub [other; self].
Definition __rmul__ (self other : pyval) : M nat pyval := Mul [other; self].
Definition __rtruediv__ (self other : pyval) : M nat pyval := Div [other; self].
Definition __rpow__ (self other : pyval) : M nat pyval := Pow [other; self].

(** The method the host calls on the left operand of [OP]. *)
Definition forward (op : binop) : pyval → pyval → M nat pyval :=
  match op with
  | OpAdd => __add__ | OpSub => __sub__ | OpMul => __mul__
  | OpDiv => __truediv__ | OpPow => __pow__
  end.

(** The method the host calls on the right operand of [OP] when the left
    operand does not handle it. *)
Definition reflected (op : binop) : pyval → pyval → M nat pyval :=
  match op with
  | OpAdd => __radd__ | OpSub => __rsub__ | OpMul => __rmul__
  | OpDiv => __rtruediv__ | OpPow => __rpow__
  end.

(** An operand as [Expression.__init__] stores it: a host number becomes a
    new [Number] node, of identity [id]; any other value is kept. *)
Definition boxed (id : ident) (x : pyval) : pyval :=
  match x with
  | PyNum n => PyObj id (KNumber n) []
  | _ => x
  end.

(** How the host evaluates [e1 OP e2]: it calls a method of this module;
    or it first converts the fraction [numerator/denominator] to a float,
    which raises when the fraction is out of the range of floats, and calls
    a method of this module with the bit pattern of that float; or it calls
    no method of this module at all. *)
Inductive dispatch :=
| Method (m : M nat pyval)
| FloatFirst (numerator denominator : Z) (m : Z → M nat pyval)
| Builtin.

(** [e1 OP e2].  When [e1] is an [Expression] its forward method runs.
    Otherwise the forward method of the host value [e1] runs first.  That of
    an [int], [bool], [float], [complex] or [Decimal], and that of a
    [Fraction] for [+ - * /], does not know [Expression] and returns
    [NotImplemented], so the reflected method of [e2] runs on [e1] itself.
    [Fraction.__pow__] is the exception: for an exponent that is not a
    rational it returns [float(e1) ** e2] (CPython 3.11, [fractions.py],
    lines 568-569), so the reflected method of [e2] runs on [float(e1)] and
    not on [e1].  When neither operand is an [Expression] the host's own
    arithmetic applies and no method of this module is called. *)
Definition compose (op : binop) (e1 e2 : pyval) : dispatch :=
  match e1, e2 with
  | PyObj _ _ _, _ => Method (forward op e1 e2)
  | PyNum (NFraction numerator denominator), PyObj _ _ _ =>
      match op with
      | OpPow =>
          FloatFirst numerator denominator
            (λ bits, reflected OpPow e2 (PyNum (NFloat bits)))
      | _ => Method (reflected op e2 e1)
      end
  | _, PyObj _ _ _ => Method (reflected op e2 e1)
  | _, _ => Builtin
  end.

(** What [e1 OP e2] runs, given the host's conversion [float] of a fraction
    to the bit pattern of a float: the computation that builds the node, or
    none when no method of this module is called. *)
Definition evaluate (float : Z → Z → result Z) (d : dispatch)
  : option (M nat pyval) :=
  match d with
  | Method m => Some m
  | FloatFirst numerator denominator m =>
      Some (match float numerator denominator with
            | Ok bits => m bits
            | Raise e => raise e
            end)
  | Builtin => None
  end.

(** ** The postorder visitor *)

Section postvisitor.
Context {St R : Type}.

(** A visitor function [fn(node, *o, **kwargs)]: it may read and update
    state of its own and may raise. *)
Definition visitor : Type := pyval → list R → kwargs → M St R.

(** [child not in visited].  The keys of [visited] are nodes, hashed and
    compared by identity; a host value is never equal to one of them. *)
Definition not_in_visited (visited : gmap ident R) (child : pyval) : bool :=
  match child with
  | PyObj id _ _ => bool_decide (visited !! id = None)
  | _ => true
  end.

(** [visited[child]] *)
Definition visited_get (visited : gmap ident R) (child : pyval) : option R :=
  match child with
  | PyObj id _ _ => visited !! id
  | _ => None
  end.

(** [[visited[child] for child in operands]]; [None] stands for the
    [KeyError] of a missing key. *)
Definition visited_results (visited : gmap ident R) (operands : list pyval)
  : option (list R) :=
  mapM (visited_get visited) operands.

(** The [while stack:] loop of lines 141-153.  The head of [stack] is the
    top of the Python list, its last element: [stack.pop()] takes the head,
    [stack.append(current)] followed by [stack.extend(unvisited)] leaves the
    last unvisited child on top.  [fuel] bounds the number of iterations;
    [None] is returned when it runs out. *)
Fixpoint postvisitor_loop (fuel : nat) (fn : visitor) (kw : kwargs)
    (stack : list pyval) (visited : gmap ident R) (s : St)
  : option (result (gmap ident R)) * St :=
  match stack with
  | [] => (Some (Ok visited), s)
  | current :: stack' =>
      match fuel with
      | 0 => (None, s)
      | S fuel' =>
          match current with
          | PyObj id _ operands =>
              let unvisited := filter (λ child, not_in_visited visited child) operands in
              match unvisited with
              | _ :: _ =>
                  postvisitor_loop fuel' fn kw
                    (rev unvisited ++ current :: stack') visited s
              | [] =>
                  match visited_results visited operands with
                  | None => (Some (Raise KeyError), s)
                  | Some results =>
                      match fn current results kw s with
                      | (Ok r, s') =>
                          postvisitor_loop fuel' fn kw stack'
                            (<[id := r]> visited) s'
                      | (Raise e, s') => (Some (Raise e), s')
                      end
                  end
              end
          | _ => (Some (Raise AttributeError), s)
          end
      end
  end.

(** [postvisitor(expr, fn, **kwargs)], lines 122-154. *)
Definition postvisitor (fuel : nat) (expr : pyval) (fn : visitor) (kw : kwargs)
    (s : St) : option (result R) * St :=
  match postvisitor_loop fuel fn kw [expr] ∅ s with
  | (Some (Ok visited), s') =>
      match visited_get visited expr with
      | Some r => (Some (Ok r), s')
      | None => (Some (Raise KeyError), s')
      end
  | (Some (Raise e), s') => (Some (Raise e), s')
  | (None, s') => (None, s')
  end.

End postvisitor.

(** ** Differentiation rules *)

(** The single-dispatch function [differentiate(expr, *c, **kwargs)] with
    its registered implementations, lines 157-201.  Dispatch is on the class
    of [expr]; a class with no registered implementation falls to the
    default one, which raises. *)
Definition differentiate (expr : pyval) (c : list pyval) (kw : kwargs)
  : M nat pyval :=
  match expr with
  | PyObj _ (KNumber _) _ =>
      Number (PyNum (NInt 0))
  | PyObj _ (KSymbol value) _ =>
      match kw !! "var" with
      | None => raise TypeError
      | Some var =>
          if str_eq value var then Number (PyNum (NInt 1))
          else Number (PyNum (NInt 0))
      end
  | PyObj _ KAdd _ =>
      c0 ← getitem c 0 ;
      c1 ← getitem c 1 ;
      Add [c0; c1]
  | PyObj _ KSub _ =>
      c0 ← getitem c 0 ;
      c1 ← getitem c 1 ;
      Sub [c0; c1]
  | PyObj _ KMul operands =>
      c0 ← getitem c 0 ;
      b ← getitem operands 1 ;
      l ← Mul [c0; b] ;
      c1 ← getitem c 1 ;
      a ← getitem operands 0 ;
      r ← Mul [c1; a] ;
      Add [l; r]
  | PyObj _ KDiv operands =>
      c0 ← getitem c 0 ;
      b ← getitem operands 1 ;
      l ← Mul [c0; b] ;
      c1 ← getitem c 1 ;
      a ← getitem operands 0 ;
      r ← Mul [c1; a] ;
      numerator ← Sub [l; r] ;
      b' ← getitem operands 1 ;
      two ← Number (PyNum (NInt 2)) ;
      denominator ← Pow [b'; two] ;
      Div [numerator; denominator]
  | PyObj _ KPow operands =>
      b ← getitem operands 1 ;
      a ← getitem operands 0 ;
      b' ← getitem operands 1 ;
      one ← Number (PyNum (NInt 1)) ;
      exponent ← Sub [b'; one] ;
      power ← Pow [a; exponent] ;
      Mul [b; power]
  | _ =>
      raise (NotImplementedError ("Cannot differentiate a " +:+ type_name expr))
  end.

(** ** Observing the calls of a visitor *)

(** One invocation of the visitor: the node, the positional results, the
    keyword arguments, and what the call produced. *)
Record call (R : Type) := Call {
  call_node : pyval;
  call_args : list R;
  call_kwargs : kwargs;
  call_result : result R;
}.
Arguments Call {R}.
Arguments call_node {R}.
Arguments call_args {R}.
Arguments call_kwargs {R}.
Arguments call_result {R}.

(** [traced fn] behaves as [fn] and appends every invocation to a log kept
    next to the state of [fn], the way a counting wrapper does in a test. *)
Definition traced {St R} (fn : @visitor St R) : @visitor (St * list (call R)) R :=
  λ node o kw '(s, log),
    let '(r, s') := fn node o kw s in
    (r, (s', log ++ [Call node o kw r])).

(** ** Expression graphs *)

(** A bound on the number of iterations of the visitor's loop: a node is
    popped once to push its operands and once to be visited. *)
Fixpoint weight (v : pyval) : nat :=
  match v with
  | PyObj _ _ operands => 2 + foldr (λ child acc, weight child + acc) 0 operands
  | _ => 1
  end.

(** Every value reachable from [v] through [operands], [v] included, with
    repetitions. *)
Fixpoint subvalues (v : pyval) : list pyval :=
  v :: match v with
       | PyObj _ _ operands =>
           foldr (λ child acc, subvalues child ++ acc) [] operands
       | _ => []
       end.

(** Identities denote objects: two nodes of the graph with one identity are
    one node. *)
Definition coherent (root : pyval) : Prop :=
  ∀ id cls1 ops1 cls2 ops2,
    PyObj id cls1 ops1 ∈ subvalues root →
    PyObj id cls2 ops2 ∈ subvalues root →
    cls1 = cls2 ∧ ops1 = ops2.

(** Every value reachable from the values [vs] a program holds. *)
Definition objects (vs : list pyval) : list pyval := vs ≫= subvalues.

(** The state of a program that holds the values [vs] when [n] is the next
    unused identity: every node has been allocated, and identities denote
    objects. *)
Definition heap_ok (n : nat) (vs : list pyval) : Prop :=
  (∀ id cls ops, PyObj id cls ops ∈ objects vs → id < n) ∧
  (∀ id cls1 ops1 cls2 ops2,
     PyObj id cls1 ops1 ∈ objects vs → PyObj id cls2 ops2 ∈ objects vs →
     cls1 = cls2 ∧ ops1 = ops2).

(** The number of distinct node identities of a graph. *)
Definition identities (root : pyval) : gset ident :=
  list_to_set (omap (λ v, match v with PyObj id _ _ => Some id | _ => None end)
                 (subvalues root)).

(** The shape every node of a graph must have for the differentiation rules
    to find the operands and results they index: a terminal without
    operands, a binary operator, or a node of another class. *)
Definition node_ok (v : pyval) : Prop :=
  match v with
  | PyObj _ (KNumber _) operands | PyObj _ (KSymbol _) operands => operands = []
  | PyObj _ (KOther _) _ => True
  | PyObj _ _ operands => length operands = 2
  | _ => False
  end.

(** ** The rule table of the specification *)

(** Expressions as the closed sum type of the seven node variants. *)
Inductive expr :=
| ENumber (n : num)
| ESymbol (s : string)
| EAdd (a b : expr)
| ESub (a b : expr)
| EMul (a b : expr)
| EDiv (a b : expr)
| EPow (a b : expr).

(** The expression an object graph denotes once identities are forgotten;
    defined when every node is a terminal without operands or one of the
    five operators with two operands. *)
Fixpoint as_expr (v : pyval) : option expr :=
  match v with
  | PyObj _ (KNumber n) [] => Some (ENumber n)
  | PyObj _ (KSymbol s) [] => Some (ESymbol s)
  | PyObj _ KAdd [a; b] => a' ← as_expr a; b' ← as_expr b; Some (EAdd a' b')
  | PyObj _ KSub [a; b] => a' ← as_expr a; b' ← as_expr b; Some (ESub a' b')
  | PyObj _ KMul [a; b] => a' ← as_expr a; b' ← as_expr b; Some (EMul a' b')
  | PyObj _ KDiv [a; b] => a' ← as_expr a; b' ← as_expr b; Some (EDiv a' b')
  | PyObj _ KPow [a; b] => a' ← as_expr a; b' ← as_expr b; Some (EPow a' b')
  | _ => None
  end.

(** The table of section 4.3 folded over an expression, children first. *)
Fixpoint derivative (var : string) (e : expr) : expr :=
  match e with
  | ENumber _ => ENumber (NInt 0)
  | ESymbol s => if bool_decide (s = var) then ENumber (NInt 1) else ENumber (NInt 0)
  | EAdd a b => EAdd (derivative var a) (derivative var b)
  | ESub a b => ESub (derivative var a) (derivative var b)
  | EMul a b => EAdd (EMul (derivative var a) b) (EMul (derivative var b) a)
  | EDiv a b =>
      EDiv (ESub (EMul (derivative var a) b) (EMul (derivative var b) a))
           (EPow b (ENumber (NInt 2)))
  | EPow a b => EMul b (EPow a (ESub b (ENumber (NInt 1))))
  end.

(** ** Runs of the visitor's loop *)

(** [covers V V']: every node visited in [V] is visited in [V']. *)
Definition covers {R} (V V' : gmap ident R) : Prop :=
  ∀ child, not_in_visited V child = false → not_in_visited V' child = false.

(** [finishes fn kw Err Q l V s n]: started with the entries [l] on top of
    the stack, the loop needs at most [n] iterations either to pop them all,
    reaching a table and state that satisfy [Q], or to raise an exception
    that satisfies [Err].  It does so whatever lies below [l] and whatever
    fuel is left over. *)
Definition finishes {St R} (fn : @visitor St R) (kw : kwargs)
    (Err : exn → St → Prop) (Q : gmap ident R → St → Prop)
    (l : list pyval) (V : gmap ident R) (s : St) (n : nat) : Prop :=
  (∃ V' s', Q V' s' ∧
     ∀ k rest, postvisitor_loop (n + k) fn kw (l ++ rest) V s
               = postvisitor_loop k fn kw rest V' s') ∨
  (∃ e s', Err e s' ∧
     ∀ k rest, postvisitor_loop (n + k) fn kw (l ++ rest) V s
               = (Some (Raise e), s')).

(** What holds once an entry [node] has been popped for good: the client's
    invariant [Inv] and postcondition [Post], and [node] is visited. *)
Definition visited_after {St R} (Inv : gmap ident R → St → Prop)
    (Post : pyval → gmap ident R → St → Prop)
    (V : gmap ident R) (node : pyval) : gmap ident R → St → Prop :=
  λ V' s', Inv V' s' ∧ Post node V' s' ∧ covers V V' ∧
           not_in_visited V' node = false.

(** What holds once a list of entries has been popped. *)
Definition all_visited_after {St R} (Inv : gmap ident R → St → Prop)
    (V : gmap ident R) (l : list pyval) : gmap ident R → St → Prop :=
  λ V' s', Inv V' s' ∧ covers V V' ∧
           ∀ child, child ∈ l → not_in_visited V' child = false.

(** ** Reading a log of calls *)

(** [same_object a b]: [a] and [b] are one node. *)
Definition same_object (a b : pyval) : Prop :=
  match a, b with
  | PyObj i _ _, PyObj j _ _ => i = j
  | _, _ => False
  end.

(** The results a log accounts for: for every node, what the latest call on
    it returned. *)
Definition memo_of {R} (log : list (call R)) : gmap ident R :=
  foldl (λ V c, match call_node c, call_result c with
                | PyObj id _ _, Ok r => <[id := r]> V
                | _, _ => V
                end) ∅ log.

(** Every call of the log was made with the keyword arguments [kw], on a
    node each of whose operands had been the node of an earlier call that
    returned, the positional arguments being the results of those calls,
    one per operand and in the order of the operands. *)
Definition postorder_log {R} (kw : kwargs) (log : list (call R)) : Prop :=
  ∀ before c after, log = before ++ c :: after →
    call_kwargs c = kw ∧
    ∃ id cls operands, call_node c = PyObj id cls operands ∧
      Forall2 (λ child r, ∃ c', c' ∈ before ∧
                 same_object (call_node c') child ∧ call_result c' = Ok r)
        operands (call_args c).

(** The identity of the node of a call. *)
Definition call_id {R} (c : call R) : option ident :=
  match call_node c with
  | PyObj id _ _ => Some id
  | _ => None
  end.

(** The number of calls a log records on the node [id]. *)
Definition calls_on {R} (id : ident) (log : list (call R)) : nat :=
  length (filter (λ c, call_id c = Some id) log).

(** The invariant of the fold of [differentiate] over [root]: every visited
    node of the graph denotes an expression and its entry in the table
    denotes the derivative of that expression. *)
Definition derivatives_memoized (root : pyval) (var : string)
  : gmap ident pyval → nat → Prop :=
  λ V _, ∀ v r, v ∈ subvalues root → visited_get V v = Some r →
    ∃ t, as_expr v = Some t ∧ as_expr r = Some (derivative var t).

(** ** A graph with a shared subexpression *)

Definition x_node : pyval := PyObj 0 (KSymbol "x") [].
Definition y_node : pyval := PyObj 1 (KSymbol "y") [].

(** The object graph of [x + y]. *)
Definition x_plus_y : pyval := PyObj 2 KAdd [x_node; y_node].

(** The object graph of [x + (x + y)]. *)
Definition shared_graph : pyval := PyObj 3 KAdd [x_node; x_plus_y].

(** A node of a class the rule table does not know, over two symbols. *)
Definition unsupported_graph : pyval := PyObj 2 (KOther "Mod") [x_node; y_node].

(** [x = Symbol("x"); y = Symbol("y"); x + (x + y)]: the node [x] is an
    operand of the sum and of the inner sum. *)
Definition shared_subexpression : M nat pyval :=
  x ← Symbol (PyStr "x") ;
  y ← Symbol (PyStr "y") ;
  inner ← __add__ x y ;
  __add__ x inner.

(** A visitor that only returns. *)
Definition unit_visitor : @visitor unit unit := λ _ _ _, ret ().

(** ** Rendering *)

#[global] Instance result_ret : MRet result := @Ok.
#[global] Instance result_bind : MBind result :=
  λ A B f m, match m with Ok a => f a | Raise e => Raise e end.

Section rendering.

(** What the host and the classes outside the module decide.

    [overflow stack] tells whether the host's call stack is exhausted on
    entering a call of [str], [stack] listing the values whose rendering is
    in progress, the innermost first: the host then raises [RecursionError]
    in place of making the call.  How deep that is depends on the host and
    on the caller of [str], so nothing is assumed of it.

    [str_num] is the host's [str] of a number; it raises [ValueError] on an
    integer of more digits than the host converts.  [other_prec] is the
    [prec] attribute of a class outside the module and [other_str] its
    [__str__] method. *)
Context (overflow : list pyval → bool).
Context (str_num : num → result string).
Context (other_prec : string → result nat).
Context (other_str : list pyval → pyval → result string).

(** [x.prec], a class attribute: lines 46, 98, 103, 108, 113, 118. *)
Definition getattr_prec (x : pyval) : result nat :=
  match x with
  | PyObj _ (KNumber _) _ | PyObj _ (KSymbol _) _ => Ok 3
  | PyObj _ KAdd _ | PyObj _ KSub _ => Ok 0
  | PyObj _ KMul _ | PyObj _ KDiv _ => Ok 1
  | PyObj _ KPow _ => Ok 2
  | PyObj _ (KOther name) _ => other_prec name
  | _ => Raise AttributeError
  end.

(** [prec] and [symbol] of the five operator classes, lines 97-119. *)
Definition operator_prec (op : binop) : nat :=
  match op with
  | OpAdd | OpSub => 0
  | OpMul | OpDiv => 1
  | OpPow => 2
  end.

Definition operator_symbol (op : binop) : string :=
  match op with
  | OpAdd => "+" | OpSub => "-" | OpMul => "*" | OpDiv => "/" | OpPow => "^"
  end.

(** [Operator.__str__], lines 81-94, for a node of the operator class
    [op]; [str] renders an operand, by [str(a)] or by the formatted string
    [f"({a})"], which calls it. *)
Definition Operator___str__ (str : pyval → result string) (op : binop)
    (operands : list pyval) : result string :=
  match operands with
  | a :: b :: _ =>
      pa ← getattr_prec a ;
      sa ← str a ;
      let s := if bool_decide (pa < operator_prec op)
               then "(" +:+ sa +:+ ")" else sa in
      let s := s +:+ " " +:+ operator_symbol op +:+ " " in
      pb ← getattr_prec b ;
      sb ← str b ;
      Ok (s +:+ (if bool_decide (pb < operator_prec op)
                 then "(" +:+ sb +:+ ")" else sb))
  | _ => Raise IndexError
  end.

(** [str(x)] called while the values of [stack] are being rendered:
    [Terminal.__str__], lines 52-53, which calls [str] on the value the
    node holds; [Operator.__str__], which calls it on the operands; the
    method of a class outside the module; or the host's own rendering. *)
Fixpoint str (stack : list pyval) (x : pyval) : result string :=
  if overflow (x :: stack) then Raise RecursionError else
  match x with
  | PyNum k => str_num k
  | PyStr s => Ok s
  | PyNone => Ok "None"
  | PyObj _ (KNumber value) _ =>
      if overflow (PyNum value :: x :: stack) then Raise RecursionError
      else str_num value
  | PyObj _ (KSymbol value) _ =>
      if overflow (PyStr value :: x :: stack) then Raise RecursionError
      else Ok value
  | PyObj _ KAdd operands => Operator___str__ (str (x :: stack)) OpAdd operands
  | PyObj _ KSub operands => Operator___str__ (str (x :: stack)) OpSub operands
  | PyObj _ KMul operands => Operator___str__ (str (x :: stack)) OpMul operands
  | PyObj _ KDiv operands => Operator___str__ (str (x :: stack)) OpDiv operands
  | PyObj _ KPow operands => Operator___str__ (str (x :: stack)) OpPow operands
  | PyObj _ (KOther _) _ => other_str stack x
  end.

End rendering.

(** The infix text of an expression of the closed sum type, written out
    operator by operator.  Under [*] and [/] a sum or a difference stands
    in parentheses; under [^] everything does but a number, a symbol and a
    power; under [+] and [-] nothing does. *)
Definition in_parentheses (s : string) : string := "(" +:+ s +:+ ")".

Definition as_factor (e : expr) (s : string) : string :=
  match e with
  | EAdd _ _ | ESub _ _ => in_parentheses s
  | _ => s
  end.

Definition as_base (e : expr) (s : string) : string :=
  match e with
  | ENumber _ | ESymbol _ | EPow _ _ => s
  | _ => in_parentheses s
  end.

Fixpoint render (str_num : num → result string) (e : expr) : result string :=
  match e with
  | ENumber k => str_num k
  | ESymbol s => Ok s
  | EAdd a b =>
      sa ← render str_num a ; sb ← render str_num b ;
      Ok (sa +:+ " + " +:+ sb)
  | ESub a b =>
      sa ← render str_num a ; sb ← render str_num b ;
      Ok (sa +:+ " - " +:+ sb)
  | EMul a b =>
      sa ← render str_num a ; sb ← render str_num b ;
      Ok (as_factor a sa +:+ " * " +:+ as_factor b sb)
  | EDiv a b =>
      sa ← render str_num a ; sb ← render str_num b ;
      Ok (as_factor a sa +:+ " / " +:+ as_factor b sb)
  | EPow a b =>
      sa ← render str_num a ; sb ← render str_num b ;
      Ok (as_base a sa +:+ " ^ " +:+ as_base b sb)
  end.

(** The expression an operator node denotes, and the value of the [prec]
    attribute of the node that denotes an expression. *)
Definition binop_expr (op : binop) (a b : expr) : expr :=
  match op with
  | OpAdd => EAdd a b | OpSub => ESub a b | OpMul => EMul a b
  | OpDiv => EDiv a b | OpPow => EPow a b
  end.

Definition expr_prec (e : expr) : nat :=
  match e with
  | ENumber _ | ESymbol _ => 3
  | EAdd _ _ | ESub _ _ => 0
  | EMul _ _ | EDiv _ _ => 1
  | EPow _ _ => 2
  end.

(** The object graph of [(x + y) * x ^ 2]. *)
Definition product_graph : pyval :=
  PyObj 5 KMul [x_plus_y; PyObj 4 KPow [x_node; PyObj 3 (KNumber (NInt 2)) []]].

(** The object graphs of [x - (y - x)] and [(x - y) - x]. *)
Definition x_minus_y : pyval := PyObj 2 KSub [x_node; y_node].
Definition y_minus_x : pyval := PyObj 2 KSub [y_node; x_node].
Definition nested_right : pyval := PyObj 3 KSub [x_node; y_minus_x].
Definition nested_left : pyval := PyObj 3 KSub [x_minus_y; x_node].

(** ** Orders of traversal *)

(** [returned c]: the call [c] of the visitor returned a result. *)
Definition returned {R} (c : call R) : Prop := ∃ r, call_result c = Ok r.




(** [symbol_free e]: no [Symbol] occurs in [e]. *)
Fixpoint symbol_free (e : expr) : bool :=
  match e with
  | ENumber _ => true
  | ESymbol _ => false
  | EAdd a b | ESub a b | EMul a b | EDiv a b | EPow a b =>
      symbol_free a && symbol_free b
  end.

(** ** Operand edges *)

(** The operands of the first node of identity [id] in a list of values. *)
Fixpoint operands_of (id : ident) (l : list pyval) : list pyval :=
  match l with
  | [] => []
  | PyObj id' _ operands :: l' =>
      if decide (id' = id) then operands else operands_of id l'
  | _ :: l' => operands_of id l'
  end.

(** The number of operands of the node [id] of a graph. *)
Definition outdegree (root : pyval) (id : ident) : nat :=
  length (operands_of id (subvalues root)).

(** The number of operand edges of a graph, every node object counted
    once. *)
Definition edges (root : pyval) : nat :=
  sum_list_with (outdegree root) (elements (identities root)).

(** The operand edges of the nodes that a table has no entry for. *)
Definition pending {R} (root : pyval) (V : gmap ident R) : nat :=
  sum_list_with (λ id, match V !! id with
                       | None => outdegree root id
                       | Some _ => 0
                       end) (elements (identities root)).

(** [operands_visited root V]: the operands of every visited node of the
    graph are visited. *)
Definition operands_visited {R} (root : pyval) (V : gmap ident R) : Prop :=
  ∀ id cls operands child,
    PyObj id cls operands ∈ subvalues root → is_Some (V !! id) →
    child ∈ operands → not_in_visited V child = false.

(** [runs_within fn kw root budget l V s log]: started with the entries [l]
    on top of the stack, the loop pops them all; the calls it makes, all on
    nodes below the entries, number at most [budget] more than the pending
    operand edges they take off. *)
Definition runs_within {St R} (fn : @visitor St R) (kw : kwargs) (root : pyval)
    (budget : nat) (l : list pyval) (V : gmap ident R) (s : St)
    (log : list (call R)) : Prop :=
  ∃ n V' s' calls,
    n ≤ foldr (λ child acc, weight child + acc) 0 l ∧
    length calls + pending root V' ≤ budget + pending root V ∧
    operands_visited root V' ∧
    covers V V' ∧
    (∀ child, child ∈ l → not_in_visited V' child = false) ∧
    (∀ id, is_Some (V' !! id) →
           is_Some (V !! id) ∨
           ∃ child cls operands, child ∈ l ∧ PyObj id cls operands ∈ subvalues child) ∧
    ∀ k rest,
      postvisitor_loop (n + k) (traced fn) kw (l ++ rest) V (s, log)
      = postvisitor_loop k (traced fn) kw rest V' (s', log ++ calls).

(** The naive recursive visit: a function applied to a node and to the
    results of visiting its operands, with no memo table. *)
Fixpoint recursive_visit {R} (f : pyval → list R → R) (v : pyval) : R :=
  match v with
  | PyObj _ _ operands => f v (map (recursive_visit f) operands)
  | _ => f v []
  end.

(** ** Basic facts about graphs *)

Lemma weight_operand id cls operands child :
  child ∈ operands → weight child < weight (PyObj id cls operands).
Proof.
  simpl. induction operands as [|x l IH]; intros Hin.
  - by apply elem_of_nil in Hin.
  - apply elem_of_cons in Hin as [->|Hin]; simpl; [lia|].
    specialize (IH Hin). lia.
Qed.

Lemma weight_filter (P : pyval → bool) operands :
  foldr (λ child acc, weight child + acc) 0 (filter (λ c, P c) operands)
  ≤ foldr (λ child acc, weight child + acc) 0 operands.
Proof.
  induction operands as [|x l IH]; [done|].
  rewrite filter_cons. destruct (decide (P x)); simpl; lia.
Qed.

Lemma weight_rev l :
  foldr (λ child acc, weight child + acc) 0 (rev l)
  = foldr (λ child acc, weight child + acc) 0 l.
Proof.
  induction l as [|x l IH]; [done|]. simpl.
  rewrite foldr_app. simpl. rewrite <- IH.
  generalize (rev l). intros l'. induction l' as [|y l' IH']; simpl; lia.
Qed.

Lemma covers_refl {R} (V : gmap ident R) : covers V V.
Proof. by intros c. Qed.

Lemma covers_trans {R} (V1 V2 V3 : gmap ident R) :
  covers V1 V2 → covers V2 V3 → covers V1 V3.
Proof. intros H1 H2 c Hc. by apply H2, H1. Qed.

Lemma covers_insert {R} (V : gmap ident R) id r : covers V (<[id := r]> V).
Proof.
  intros [| | |id' k ops]; simpl; try done.
  rewrite !bool_decide_eq_false. intros Hc Hn.
  destruct (decide (id = id')) as [->|Hne].
  - by rewrite lookup_insert_eq in Hn.
  - by rewrite lookup_insert_ne in Hn.
Qed.

Lemma visited_results_is_Some {R} (V : gmap ident R) operands :
  filter (λ child, not_in_visited V child) operands = [] →
  is_Some (visited_results V operands).
Proof.
  unfold visited_results. induction operands as [|x l IH]; intros Hf.
  - by eexists.
  - rewrite filter_cons in Hf. destruct (decide (not_in_visited V x)) as [Hx|Hx]; [done|].
    destruct (IH Hf) as [rs Hrs].
    assert (is_Some (visited_get V x)) as [r Hr].
    { destruct x as [| | |id k ops]; simpl in *; try done.
      apply not_eq_None_Some. intros Hn. apply Hx. by apply bool_decide_pack. }
    exists (r :: rs). simpl. rewrite Hr. simpl. by rewrite Hrs.
Qed.

Lemma elem_of_rev_iff {A} (x : A) (l : list A) : x ∈ rev l ↔ x ∈ l.
Proof. rewrite !list_elem_of_In. symmetry. apply in_rev. Qed.


Lemma subvalues_self v : v ∈ subvalues v.
Proof. destruct v; by left. Qed.

Lemma subvalues_children operands child v :
  child ∈ operands → v ∈ subvalues child →
  v ∈ foldr (λ c acc, subvalues c ++ acc) [] operands.
Proof.
  induction operands as [|x l IH]; intros Hin Hv.
  - by apply elem_of_nil in Hin.
  - simpl. apply elem_of_app. apply elem_of_cons in Hin as [<-|Hin]; [by left|].
    right. by apply IH.
Qed.

Lemma subvalues_operand_le id cls operands child v :
  child ∈ operands → v ∈ subvalues child → v ∈ subvalues (PyObj id cls operands).
Proof. intros Hin Hv. right. by eapply subvalues_children. Qed.


Lemma subvalues_children_inv operands v :
  v ∈ foldr (λ c acc, subvalues c ++ acc) [] operands →
  ∃ child, child ∈ operands ∧ v ∈ subvalues child.
Proof.
  induction operands as [|x l IH]; simpl; intros Hv.
  - by apply elem_of_nil in Hv.
  - apply elem_of_app in Hv as [Hv|Hv].
    + exists x. split; [by left|done].
    + destruct (IH Hv) as (c & Hc & Hvc). exists c. split; [by right|done].
Qed.

Lemma subvalues_inv root v :
  v ∈ subvalues root →
  v = root ∨ ∃ id cls operands child,
    root = PyObj id cls operands ∧ child ∈ operands ∧ v ∈ subvalues child.
Proof.
  destruct root as [k|t| |id cls operands]; simpl; intros Hv;
    apply elem_of_cons in Hv as [->|Hv]; try (by left); try (by apply elem_of_nil in Hv).
  right. apply subvalues_children_inv in Hv as (c & Hc & Hv). by exists id, cls, operands, c.
Qed.

Lemma subvalues_trans root v w :
  v ∈ subvalues root → w ∈ subvalues v → w ∈ subvalues root.
Proof.
  remember (weight root) as n eqn:Hn. revert root Hn.
  induction (lt_wf n) as [n _ IH]. intros root -> Hv Hw.
  apply subvalues_inv in Hv as [->|(id & cls & operands & c & -> & Hc & Hv)]; [done|].
  eapply subvalues_operand_le; [done|].
  eapply IH; [|done..]. by apply weight_operand.
Qed.

Lemma subvalues_operand root id cls operands child :
  PyObj id cls operands ∈ subvalues root → child ∈ operands →
  child ∈ subvalues root.
Proof.
  intros Hn Hc. eapply subvalues_trans; [done|].
  eapply subvalues_operand_le; [done|apply subvalues_self].
Qed.

(** ** Identities in constructed graphs *)

Lemma objects_cons v vs : objects (v :: vs) = subvalues v ++ objects vs.
Proof. done. Qed.

Lemma objects_app l vs : objects (l ++ vs) = objects l ++ objects vs.
Proof. unfold objects. apply bind_app. Qed.

Lemma elem_of_objects vs w : w ∈ objects vs ↔ ∃ v, w ∈ subvalues v ∧ v ∈ vs.
Proof. apply list_elem_of_bind. Qed.

Lemma objects_closed vs v w : v ∈ objects vs → w ∈ subvalues v → w ∈ objects vs.
Proof.
  intros (r & Hv & Hr)%elem_of_objects Hw. apply elem_of_objects.
  exists r. split; [by eapply subvalues_trans|done].
Qed.

Lemma heap_ok_coherent n vs v : heap_ok n vs → v ∈ vs → coherent v.
Proof.
  intros [_ Hco] Hv id cls1 ops1 cls2 ops2 H1 H2.
  apply (Hco id); apply elem_of_objects; by exists v.
Qed.

Lemma heap_ok_mono n n' vs : n ≤ n' → heap_ok n vs → heap_ok n' vs.
Proof.
  intros Hle [Hlt Hco]. split; [|done].
  intros id cls ops Hin. specialize (Hlt _ _ _ Hin). lia.
Qed.

Lemma heap_ok_subseteq n vs ws :
  (∀ v, v ∈ objects ws → v ∈ objects vs) → heap_ok n vs → heap_ok n ws.
Proof.
  intros Hsub [Hlt Hco]. split.
  - intros id cls ops Hin. by eapply Hlt, Hsub.
  - intros id c1 o1 c2 o2 H1 H2. by eapply Hco; apply Hsub.
Qed.

(** A node built over values the program holds, with an identity none of
    them uses, extends the state. *)
Lemma heap_ok_new n vs id cls operands :
  heap_ok n vs → id < n →
  (∀ id' cls' ops', PyObj id' cls' ops' ∈ objects vs → id' ≠ id) →
  (∀ v, v ∈ objects operands → v ∈ objects vs) →
  heap_ok n (PyObj id cls operands :: vs).
Proof.
  intros [Hlt Hco] Hid Hnew Hops.
  assert (∀ id' cls' ops', PyObj id' cls' ops' ∈ objects (PyObj id cls operands :: vs) →
            (id' = id ∧ cls' = cls ∧ ops' = operands) ∨
            (id' ≠ id ∧ PyObj id' cls' ops' ∈ objects vs)) as Hcase.
  { intros id' cls' ops'. rewrite objects_cons.
    intros [Hin|Hin]%elem_of_app.
    - apply subvalues_inv in Hin
        as [[= -> -> ->]|(? & ? & ? & c & [= <- <- <-] & Hc & Hin)]; [by left|].
      right.
      assert (PyObj id' cls' ops' ∈ objects vs) as Hin'.
      { apply Hops, elem_of_objects. by exists c. }
      split; [by eapply Hnew|done].
    - right. split; [by eapply Hnew|done]. }
  split.
  - intros id' cls' ops' [(-> & _)|[_ Hin]]%Hcase; [done|by eapply Hlt].
  - intros id' cls1 ops1 cls2 ops2 H1%Hcase H2%Hcase.
    destruct H1 as [(-> & -> & ->)|[Hne1 H1]], H2 as [(? & -> & ->)|[Hne2 H2]];
      try done. by eapply Hco.
Qed.

(** [Expression.__init__] keeps the values the program holds and boxes the
    host numbers into nodes of identities not used before. *)
Lemma Expression_init_heap_ok vs operands n :
  heap_ok n vs →
  (∀ v, v ∈ objects operands → isinstance_Expression v = true → v ∈ objects vs) →
  ∃ l n', Expression_init operands n = (Ok l, n') ∧ n ≤ n' ∧
          length l = length operands ∧
          heap_ok n' (l ++ vs) ∧
          ∀ id cls ops, PyObj id cls ops ∈ objects l →
                        PyObj id cls ops ∈ objects vs ∨ n ≤ id.
Proof.
  revert n vs. induction operands as [|x rest IH]; intros n vs Hok Hops.
  { exists [], n. split_and!; try done. intros id cls ops Hin. by apply elem_of_nil in Hin. }
  assert (∀ v, v ∈ objects rest → isinstance_Expression v = true → v ∈ objects vs) as Hrest.
  { intros v Hin. apply Hops. rewrite objects_cons. apply elem_of_app. by right. }
  simpl. unfold mbind, M_bind, bind.
  destruct (isinstance_Num x) eqn:Hx.
  - destruct x as [k| | |]; try done. simpl.
    assert (heap_ok (S n) (PyObj n (KNumber k) [] :: vs)) as Hok'.
    { apply heap_ok_new; [apply (heap_ok_mono n); [lia|done]|lia| |].
      - intros id cls ops Hin. destruct Hok as [Hlt _]. specialize (Hlt _ _ _ Hin). lia.
      - intros v Hin. by apply elem_of_nil in Hin. }
    destruct (IH (S n) (PyObj n (KNumber k) [] :: vs) Hok')
      as (l & n' & -> & Hle & Hlen & Hl & Hfresh).
    { intros v Hin Hv. rewrite objects_cons. apply elem_of_app. right. by apply Hrest. }
    exists (PyObj n (KNumber k) [] :: l), n'.
    split_and!; [done|lia|by simpl; rewrite Hlen| |].
    + eapply heap_ok_subseteq; [|exact Hl]. intros v.
      rewrite ?objects_app, ?objects_cons, ?objects_app, ?objects_cons. rewrite ?elem_of_app; tauto.
    + intros id cls ops. rewrite objects_cons. intros [Hin|Hin]%elem_of_app.
      * simpl in Hin. apply elem_of_cons in Hin as [[= -> _ _]|Hin]; [right; lia|].
        by apply elem_of_nil in Hin.
      * destruct (Hfresh _ _ _ Hin) as [Hold|Hge]; [|right; lia].
        rewrite objects_cons in Hold. apply elem_of_app in Hold as [Hold|Hold]; [|by left].
        simpl in Hold. apply elem_of_cons in Hold as [[= -> _ _]|Hold]; [right; lia|].
        by apply elem_of_nil in Hold.
  - assert (ret x n = (Ok x, n)) as -> by done.
    assert (∀ v, v ∈ subvalues x → v ∈ objects vs ∨ isinstance_Expression v = false) as Hxs.
    { intros v Hv. destruct (isinstance_Expression v) eqn:Hv'; [left|by right].
      apply Hops; [|done]. rewrite objects_cons. apply elem_of_app. by left. }
    assert (heap_ok n (x :: vs)) as Hok'.
    { destruct Hok as [Hlt Hco].
      assert (∀ id cls ops, PyObj id cls ops ∈ objects (x :: vs) →
                PyObj id cls ops ∈ objects vs) as Hsame.
      { intros id cls ops. rewrite objects_cons. intros [Hin|Hin]%elem_of_app; [|done].
        by destruct (Hxs _ Hin). }
      split.
      - intros id cls ops Hin. by eapply Hlt, Hsame.
      - intros id c1 o1 c2 o2 H1 H2. by eapply Hco; apply Hsame. }
    destruct (IH n (x :: vs) Hok') as (l & n' & -> & Hle & Hlen & Hl & Hfresh).
    { intros v Hin Hv. rewrite objects_cons. apply elem_of_app. right. by apply Hrest. }
    exists (x :: l), n'. split_and!; [done|lia|by simpl; rewrite Hlen| |].
    + eapply heap_ok_subseteq; [|exact Hl]. intros v.
      rewrite ?objects_app, ?objects_cons, ?objects_app, ?objects_cons. rewrite ?elem_of_app; tauto.
    + intros id cls ops. rewrite objects_cons. intros [Hin|Hin]%elem_of_app.
      * by destruct (Hxs _ Hin); [left|].
      * destruct (Hfresh _ _ _ Hin) as [Hold|Hge]; [|by right].
        rewrite objects_cons in Hold. apply elem_of_app in Hold as [Hold|Hold]; [|by left].
        by destruct (Hxs _ Hold); [left|].
Qed.

(** Calling an operator class on values the program holds, host numbers
    among them or not, yields a node whose identities denote objects. *)
Lemma new_operator_heap_ok vs cls operands n :
  heap_ok n vs →
  (∀ v, v ∈ objects operands → isinstance_Expression v = true → v ∈ objects vs) →
  ∃ l n', new_operator cls operands n = (Ok (PyObj n cls l), n') ∧
          heap_ok n' (PyObj n cls l :: vs) ∧
          coherent (PyObj n cls l).
Proof.
  intros Hok Hops. unfold new_operator, mbind, M_bind, bind, fresh.
  destruct (Expression_init_heap_ok vs operands (S n))
    as (l & n' & -> & Hle & _ & Hl & Hfresh); [apply (heap_ok_mono n); [lia|done]|done|].
  exists l, n'. split; [done|].
  assert (heap_ok n' (PyObj n cls l :: l ++ vs)) as Hnew.
  { apply heap_ok_new; [done|lia| |].
    - intros id cls' ops'. rewrite objects_app. intros [Hin|Hin]%elem_of_app.
      + destruct (Hfresh _ _ _ Hin) as [Hold|Hge]; [|lia].
        destruct Hok as [Hlt _]. specialize (Hlt _ _ _ Hold). lia.
      + destruct Hok as [Hlt _]. specialize (Hlt _ _ _ Hin). lia.
    - intros v Hin. rewrite objects_app. apply elem_of_app. by left. }
  split.
  - eapply heap_ok_subseteq; [|exact Hnew]. intros v.
    rewrite ?objects_cons, ?objects_app. rewrite ?elem_of_app; tauto.
  - eapply heap_ok_coherent; [exact Hnew|by left].
Qed.

(** A terminal is a graph of its own. *)
Lemma terminal_heap_ok vs n k :
  heap_ok n vs →
  heap_ok (S n) (PyObj n (KNumber k) [] :: vs) ∧
  ∀ s, heap_ok (S n) (PyObj n (KSymbol s) [] :: vs).
Proof.
  intros Hok.
  assert (∀ cls, heap_ok (S n) (PyObj n cls [] :: vs)) as H.
  { intros cls. apply heap_ok_new; [apply (heap_ok_mono n); [lia|done]|lia| |].
    - intros id cls' ops Hin. destruct Hok as [Hlt _]. specialize (Hlt _ _ _ Hin). lia.
    - intros v Hin. by apply elem_of_nil in Hin. }
  split; [apply H|intros s; apply H].
Qed.

(** ** Runs of the loop *)

Section runs.
Context {St R : Type} (fn : @visitor St R) (kw : kwargs).
Context (Err : exn → St → Prop).

Lemma finishes_nil (Q : gmap ident R → St → Prop) V s :
  Q V s → finishes fn kw Err Q [] V s 0.
Proof. intros HQ. left. exists V, s. split; [done|]. by intros k rest. Qed.

(** Runs compose: the entries on top are popped first. *)
Lemma finishes_app (Q1 Q2 : gmap ident R → St → Prop) l1 l2 V s n1 b2 :
  finishes fn kw Err Q1 l1 V s n1 →
  (∀ V' s', Q1 V' s' → ∃ n2, n2 ≤ b2 ∧ finishes fn kw Err Q2 l2 V' s' n2) →
  ∃ n, n ≤ n1 + b2 ∧ finishes fn kw Err Q2 (l1 ++ l2) V s n.
Proof.
  intros [(V' & s' & HQ & Hrun)|(e & s' & He & Hrun)] Hnext.
  - destruct (Hnext V' s' HQ) as (n2 & Hle & [(V'' & s'' & HQ' & Hrun')|(e & s'' & He & Hrun')]).
    + exists (n1 + n2). split; [lia|]. left. exists V'', s''. split; [done|].
      intros k rest. rewrite <- Nat.add_assoc, <- app_assoc, Hrun. apply Hrun'.
    + exists (n1 + n2). split; [lia|]. right. exists e, s''. split; [done|].
      intros k rest. rewrite <- Nat.add_assoc, <- app_assoc, Hrun. apply Hrun'.
  - exists n1. split; [lia|]. right. exists e, s'. split; [done|].
    intros k rest. rewrite <- app_assoc. apply Hrun.
Qed.

Lemma finishes_weaken (Q1 Q2 : gmap ident R → St → Prop) l V s n :
  (∀ V' s', Q1 V' s' → Q2 V' s') →
  finishes fn kw Err Q1 l V s n → finishes fn kw Err Q2 l V s n.
Proof.
  intros HQ [(V' & s' & H1 & Hrun)|H]; [left|by right].
  exists V', s'. split; [by apply HQ|done].
Qed.

Context (U : pyval → Prop).
Context (Inv : gmap ident R → St → Prop).
Context (Post : pyval → gmap ident R → St → Prop).

Hypothesis U_operands :
  ∀ id cls operands child, U (PyObj id cls operands) → child ∈ operands → U child.
Hypothesis host_value :
  ∀ v V s, U v → isinstance_Expression v = false → Inv V s → Err AttributeError s.
Hypothesis visit :
  ∀ id cls operands V s results,
    U (PyObj id cls operands) → Inv V s →
    visited_results V operands = Some results →
    match fn (PyObj id cls operands) results kw s with
    | (Ok r, s') =>
        Inv (<[id := r]> V) s' ∧ Post (PyObj id cls operands) (<[id := r]> V) s'
    | (Raise e, s') => Err e s'
    end.

Lemma finishes_entries l :
  (∀ child, child ∈ l → ∀ V s, Inv V s →
     ∃ n, n ≤ weight child ∧ finishes fn kw Err (visited_after Inv Post V child) [child] V s n) →
  ∀ V s, Inv V s →
    ∃ n, n ≤ foldr (λ child acc, weight child + acc) 0 l ∧
         finishes fn kw Err (all_visited_after Inv V l) l V s n.
Proof.
  induction l as [|x l IH]; intros Hl V s HI.
  - exists 0. split; [done|]. apply finishes_nil. split_and!; [done|apply covers_refl|].
    intros c Hc. by apply elem_of_nil in Hc.
  - destruct (Hl x ltac:(left) V s HI) as (n1 & Hn1 & Hx).
    destruct (finishes_app (visited_after Inv Post V x) (all_visited_after Inv V (x :: l))
                [x] l V s n1 (foldr (λ child acc, weight child + acc) 0 l) Hx)
      as (n & Hn & Hrun).
    + intros V' s' (HI' & _ & Hc & Hv).
      destruct (IH (λ c Hc, Hl c ltac:(by right)) V' s' HI') as (n2 & Hn2 & Hrun).
      exists n2. split; [done|]. eapply finishes_weaken; [|exact Hrun].
      intros V'' s'' (HI'' & Hc' & Hall). split_and!; [done|by eapply covers_trans|].
      intros c [->|Hin]%elem_of_cons; [by apply Hc'|by apply Hall].
    + exists n. split; [simpl; lia|done].
Qed.

Lemma filter_not_in_visited_nil (V : gmap ident R) operands :
  (∀ child, child ∈ operands → not_in_visited V child = false) →
  filter (λ child, not_in_visited V child) operands = [].
Proof.
  induction operands as [|x l IH]; intros H; [done|].
  rewrite filter_cons, (H x ltac:(left)). simpl.
  destruct (decide (Is_true false)) as [[]|_]. apply IH. intros c Hc. apply H. by right.
Qed.

(** The last iteration on a node whose operands are all visited. *)
Lemma finishes_visit id cls operands V0 V s :
  U (PyObj id cls operands) → Inv V s → covers V0 V →
  filter (λ child, not_in_visited V child) operands = [] →
  finishes fn kw Err (visited_after Inv Post V0 (PyObj id cls operands))
    [PyObj id cls operands] V s 1.
Proof.
  intros HU HI Hc Hf.
  destruct (visited_results_is_Some V operands Hf) as [results Hres].
  pose proof (visit id cls operands V s results HU HI Hres) as Hv.
  destruct (fn (PyObj id cls operands) results kw s) as [[r|e] s'] eqn:Hfn.
  - left. exists (<[id := r]> V), s'. destruct Hv as [HI' HP]. split.
    + split_and!; [done|done| |].
      * eapply covers_trans; [exact Hc|apply covers_insert].
      * simpl. apply bool_decide_eq_false. by rewrite lookup_insert_eq.
    + intros k rest. simpl. by rewrite Hf, Hres, Hfn.
  - right. exists e, s'. split; [done|].
    intros k rest. simpl. by rewrite Hf, Hres, Hfn.
Qed.

Lemma finishes_entry node :
  U node → ∀ V s, Inv V s →
    ∃ n, n ≤ weight node ∧ finishes fn kw Err (visited_after Inv Post V node) [node] V s n.
Proof.
  remember (weight node) as w eqn:Hw. revert node Hw.
  induction (lt_wf w) as [w _ IH]. intros node -> HU V s HI.
  destruct node as [k|t| |id cls operands].
  1-3: exists 1; (split; [done|]); right; exists AttributeError, s;
       (split; [by eapply host_value|done]).
  destruct (filter (λ child, not_in_visited V child) operands) as [|x l] eqn:Hf.
  { exists 1. split; [simpl; lia|]. by apply finishes_visit; [| |apply covers_refl|]. }
  assert (∀ child, child ∈ rev (x :: l) → child ∈ operands) as Hsub.
  { intros c Hc. rewrite elem_of_rev_iff, <- Hf in Hc.
    by apply list_elem_of_filter in Hc as [_ ?]. }
  destruct (finishes_entries (rev (x :: l))) with (V := V) (s := s)
    as (n & Hn & Hrun); [|done|].
  { intros c Hc V' s' HI'. eapply IH; [|done| |done].
    - by apply weight_operand, Hsub.
    - by eapply U_operands, Hsub. }
  assert (n ≤ foldr (λ child acc, weight child + acc) 0 operands) as Hn'.
  { rewrite weight_rev, <- Hf in Hn. etrans; [exact Hn|apply weight_filter]. }
  destruct Hrun as [(V' & s' & (HI' & Hc & Hall) & Hrun)|(e & s' & He & Hrun)].
  - assert (filter (λ child, not_in_visited V' child) operands = []) as Hf'.
    { apply filter_not_in_visited_nil. intros c Hc'.
      destruct (not_in_visited V c) eqn:Hvc; [|by apply Hc].
      apply Hall. rewrite elem_of_rev_iff, <- Hf.
      apply list_elem_of_filter. split; [by rewrite Hvc|done]. }
    pose proof (finishes_visit id cls operands V V' s' HU HI' Hc Hf') as Hlast.
    exists (S (n + 1)). split; [simpl; lia|].
    destruct Hlast as [(V'' & s'' & HQ & Hrun')|(e & s'' & He & Hrun')].
    + left. exists V'', s''. split; [done|]. intros k rest.
      change (S (n + 1) + k) with (S (n + 1 + k)). simpl. rewrite Hf.
      rewrite <- Nat.add_assoc, Hrun. apply Hrun'.
    + right. exists e, s''. split; [done|]. intros k rest.
      change (S (n + 1) + k) with (S (n + 1 + k)). simpl. rewrite Hf.
      rewrite <- Nat.add_assoc, Hrun. apply Hrun'.
  - exists (S n). split; [simpl; lia|]. right. exists e, s'. split; [done|].
    intros k rest. change (S n + k) with (S (n + k)). simpl. rewrite Hf. apply Hrun.
Qed.

End runs.

(** ** Termination *)

Lemma postvisitor_loop_nil {St R} fuel (fn : @visitor St R) kw V s :
  postvisitor_loop fuel fn kw [] V s = (Some (Ok V), s).
Proof. by destruct fuel. Qed.

(** With [weight expr] iterations the loop has ended, by emptying the stack
    or by an exception, and more fuel changes nothing. *)
Lemma postvisitor_loop_ends {St R} (fn : @visitor St R) kw expr s :
  ∃ o s', ∀ k, postvisitor_loop (weight expr + k) fn kw [expr] ∅ s = (Some o, s').
Proof.
  destruct (finishes_entry fn kw (λ _ _, True) (λ _, True) (λ _ _, True)
              (λ _ _ _, True)) with (node := expr) (V := (∅ : gmap ident R)) (s := s)
    as (n & Hn & Hrun); try done.
  { intros id cls operands V s0 results _ _ _.
    by destruct (fn _ _ _ _) as [[]]. }
  destruct Hrun as [(V' & s' & _ & Hrun)|(e & s' & _ & Hrun)].
  - exists (Ok V'), s'. intros k.
    replace (weight expr + k) with (n + (weight expr - n + k)) by lia.
    specialize (Hrun (weight expr - n + k) []). simpl in Hrun. rewrite Hrun.
    apply postvisitor_loop_nil.
  - exists (Raise e), s'. intros k.
    replace (weight expr + k) with (n + (weight expr - n + k)) by lia.
    apply (Hrun _ []).
Qed.

(** C9.  For every expression graph, which is finite and acyclic, and every
    visitor, which returns or raises on every invocation, whatever state and
    keyword arguments it is given, [postvisitor] ends within [weight expr]
    iterations of its loop over an explicit stack: that much fuel never runs
    out, and any additional fuel leaves the outcome unchanged. *)
Theorem postvisitor_terminates {St R} (fn : @visitor St R) (kw : kwargs)
    (expr : pyval) (s : St) :
  (∃ o s', postvisitor (weight expr) expr fn kw s = (Some o, s')) ∧
  (∀ k, postvisitor (weight expr + k) expr fn kw s
        = postvisitor (weight expr) expr fn kw s).
Proof.
  destruct (postvisitor_loop_ends fn kw expr s) as (o & s' & Hrun).
  assert (∀ k, postvisitor (weight expr + k) expr fn kw s
               = match o with
                 | Ok visited =>
                     match visited_get visited expr with
                     | Some r => (Some (Ok r), s')
                     | None => (Some (Raise KeyError), s')
                     end
                 | Raise e => (Some (Raise e), s')
                 end) as Hk.
  { intros k. unfold postvisitor. rewrite Hrun. by destruct o. }
  split.
  - pose proof (Hk 0) as H0. rewrite Nat.add_0_r in H0. rewrite H0.
    destruct o as [visited|e]; [destruct (visited_get visited expr)|]; eauto.
  - intros k. rewrite Hk. pose proof (Hk 0) as H0. rewrite Nat.add_0_r in H0.
    by rewrite H0.
Qed.

(** ** The log of a traversal *)

Lemma memo_of_snoc {R} (log : list (call R)) c :
  memo_of (log ++ [c])
  = match call_node c, call_result c with
    | PyObj id _ _, Ok r => <[id := r]> (memo_of log)
    | _, _ => memo_of log
    end.
Proof. unfold memo_of. by rewrite foldl_app. Qed.

Lemma memo_of_lookup {R} (log : list (call R)) id r :
  memo_of log !! id = Some r →
  ∃ c, c ∈ log ∧ call_id c = Some id ∧ call_result c = Ok r.
Proof.
  induction log as [|c log IH] using rev_ind; [done|].
  rewrite memo_of_snoc. intros Hl.
  assert (memo_of log !! id = Some r → ∃ c0, c0 ∈ log ++ [c] ∧
            call_id c0 = Some id ∧ call_result c0 = Ok r) as Hold.
  { intros (c0 & Hin & H0)%IH. exists c0. split; [|done]. apply elem_of_app. by left. }
  destruct c as [node o kw0 res]. unfold call_id in *. simpl in *.
  destruct node as [| | |id' cls ops]; try by apply Hold.
  destruct res as [r'|e]; [|by apply Hold].
  destruct (decide (id' = id)) as [->|Hne].
  - rewrite lookup_insert_eq in Hl. injection Hl as ->.
    eexists. split; [apply elem_of_app; right; by left|done].
  - rewrite lookup_insert_ne in Hl by done. by apply Hold.
Qed.

Lemma visited_results_Forall2 {R} (V : gmap ident R) operands results :
  visited_results V operands = Some results →
  Forall2 (λ child r, visited_get V child = Some r) operands results.
Proof. unfold visited_results. intros H. by apply mapM_Some_1. Qed.

Lemma postorder_log_snoc {R} kw (log : list (call R)) id cls operands results res :
  postorder_log kw log →
  visited_results (memo_of log) operands = Some results →
  postorder_log kw (log ++ [Call (PyObj id cls operands) results kw res]).
Proof.
  intros Hlog Hres before c after Heq.
  destruct after as [|z after _] using rev_ind.
  - apply app_inj_tail in Heq as [<- <-]. split; [done|].
    exists id, cls, operands. split; [done|]. simpl.
    eapply Forall2_impl; [by apply visited_results_Forall2|].
    intros child r Hget. destruct child as [| | |cid ccls cops]; try done.
    simpl in Hget. apply memo_of_lookup in Hget as (c' & Hin & Hid & Hr).
    exists c'. split_and!; [done| |done].
    unfold call_id in Hid. destruct (call_node c'); naive_solver.
  - rewrite app_comm_cons, app_assoc in Heq. apply app_inj_tail in Heq as [-> _].
    by eapply Hlog.
Qed.

(** Observing the calls does not change what the traversal does. *)
Lemma traced_postvisitor_loop {St R} (fn : @visitor St R) kw fuel stack V s log :
  ∃ log', postvisitor_loop fuel (traced fn) kw stack V (s, log)
          = ((postvisitor_loop fuel fn kw stack V s).1,
             ((postvisitor_loop fuel fn kw stack V s).2, log ++ log')).
Proof.
  revert stack V s log. induction fuel as [|fuel IH]; intros stack V s log.
  { exists []. rewrite app_nil_r. by destruct stack. }
  destruct stack as [|current stack]; [exists []; by rewrite app_nil_r|].
  destruct current as [k|t| |id cls operands];
    try (exists []; by rewrite app_nil_r).
  simpl. destruct (filter _ operands) as [|x l]; [|apply IH].
  destruct (visited_results V operands) as [results|];
    [|exists []; by rewrite app_nil_r].
  destruct (fn (PyObj id cls operands) results kw s) as [[r|e] s'] eqn:Hfn.
  - destruct (IH stack (<[id := r]> V) s'
                (log ++ [Call (PyObj id cls operands) results kw (Ok r)])) as [log' ->].
    eexists. by rewrite <- app_assoc.
  - by eexists.
Qed.

Lemma traced_postvisitor {St R} (fn : @visitor St R) kw fuel expr s o s' log :
  postvisitor fuel expr (traced fn) kw (s, []) = (o, (s', log)) →
  postvisitor fuel expr fn kw s = (o, s').
Proof.
  unfold postvisitor.
  destruct (traced_postvisitor_loop fn kw fuel [expr] ∅ s []) as [log' ->].
  destruct (postvisitor_loop fuel fn kw [expr] ∅ s) as [[[V|e]|] s0]; simpl.
  - destruct (visited_get V expr); by intros [= <- <- _].
  - by intros [= <- <- _].
  - by intros [= <- <- _].
Qed.

(** C3.  For every graph of expressions and every visitor [fn], whether it
    returns or raises, the outcome of [postvisitor(expr, fn, **kwargs)] is
    the outcome of the last call of [fn] it makes: an exception that call
    raised, or the value it returned, and then that call is the call on the
    root.  Every call receives the keyword arguments unchanged; and every
    call is made on a node all of whose operands were the node of an earlier
    call that returned, with the results of those calls as positional
    arguments in operand order. *)
Theorem postvisitor_postorder {St R} (fn : @visitor St R) (kw : kwargs)
    (expr : pyval) (s : St) :
  (∀ v, v ∈ subvalues expr → isinstance_Expression v = true) →
  ∃ o s' log c,
    postvisitor (weight expr) expr fn kw s = (Some o, s') ∧
    postvisitor (weight expr) expr (traced fn) kw (s, []) = (Some o, (s', log)) ∧
    last log = Some c ∧
    call_result c = o ∧
    (∀ r, o = Ok r → call_node c = expr) ∧
    postorder_log kw log.
Proof.
  intros Hexpr.
  destruct (finishes_entry (traced fn) kw
              (λ e sl, postorder_log kw sl.2 ∧
                       ∃ c, last sl.2 = Some c ∧ call_result c = Raise e)
              (λ v, v ∈ subvalues expr)
              (λ V sl, V = memo_of sl.2 ∧ postorder_log kw sl.2)
              (λ node V sl, ∃ o r, last sl.2 = Some (Call node o kw (Ok r)) ∧
                                    visited_get V node = Some r))
    with (node := expr) (V := (∅ : gmap ident R)) (s := (s, @nil (call R)))
    as (n & Hn & Hrun).
  - intros id cls operands child Hin Hc. by eapply subvalues_operand.
  - intros v V s0 Hv Hf. apply Hexpr in Hv. congruence.
  - intros id cls operands V [s0 log] results _ [-> Hlog] Hres.
    simpl. destruct (fn (PyObj id cls operands) results kw s0) as [[r|e] s1].
    + simpl. split; [split|].
      * by rewrite memo_of_snoc.
      * by apply postorder_log_snoc.
      * exists results, r. rewrite last_snoc, lookup_insert_eq. done.
    + simpl. split; [by apply postorder_log_snoc|].
      eexists. by rewrite last_snoc.
  - apply subvalues_self.
  - split; [done|]. intros before c after Heq. by destruct before.
  - assert (∀ o sl, (∀ k rest, postvisitor_loop (n + k) (traced fn) kw ([expr] ++ rest)
                                 ∅ (s, []) = postvisitor_loop k (traced fn) kw rest o sl) →
              postvisitor_loop (weight expr) (traced fn) kw [expr] ∅ (s, [])
              = (Some (Ok o), sl)) as Hok.
    { intros o sl Hrun'. pose proof (Hrun' (weight expr - n) []) as Hend.
      replace (n + (weight expr - n)) with (weight expr) in Hend by lia.
      change ([expr] ++ []) with [expr] in Hend.
      by rewrite Hend, postvisitor_loop_nil. }
    destruct Hrun as [(V' & [s' log] & ((-> & Hlog) & (o & r & Hlast & Hget) & _) & Hrun)
                     |(e & [s' log] & (Hlog & c & Hlast & Hc) & Hrun)].
    + assert (postvisitor (weight expr) expr (traced fn) kw (s, [])
              = (Some (Ok r), (s', log))) as Htraced.
      { unfold postvisitor. by rewrite (Hok _ _ Hrun), Hget. }
      exists (Ok r), s', log, (Call expr o kw (Ok r)).
      split_and!; [by eapply traced_postvisitor|done..].
    + assert (postvisitor (weight expr) expr (traced fn) kw (s, [])
              = (Some (Raise e), (s', log))) as Htraced.
      { unfold postvisitor. pose proof (Hrun (weight expr - n) []) as Hend.
        replace (n + (weight expr - n)) with (weight expr) in Hend by lia.
        change ([expr] ++ []) with [expr] in Hend. by rewrite Hend. }
      exists (Raise e), s', log, c.
      split_and!; [by eapply traced_postvisitor|done..].
Qed.

(** ** The differentiation rules *)

Lemma Expression_init_objects operands n :
  Forall (λ x, isinstance_Expression x = true) operands →
  Expression_init operands n = (Ok operands, n).
Proof.
  induction 1 as [|x l Hx _ IH]; [done|].
  destruct x; try done. simpl. unfold mbind, M_bind, bind, mret, M_ret, ret.
  simpl. by rewrite IH.
Qed.

Lemma new_operator_objects cls a b n :
  isinstance_Expression a = true → isinstance_Expression b = true →
  new_operator cls [a; b] n = (Ok (PyObj n cls [a; b]), S n).
Proof.
  intros Ha Hb. unfold new_operator, mbind, M_bind, bind, fresh.
  rewrite Expression_init_objects; [done|]. by repeat constructor.
Qed.

Lemma as_expr_object v t : as_expr v = Some t → isinstance_Expression v = true.
Proof. by destruct v. Qed.

Ltac run_rule :=
  unfold differentiate, Add, Sub, Mul, Div, Pow, Number, getitem, fresh,
    mbind, M_bind, bind, mret, M_ret, ret; simpl;
  repeat (rewrite new_operator_objects by done; simpl).

Lemma differentiate_Number id value operands c kw n :
  differentiate (PyObj id (KNumber value) operands) c kw n
  = (Ok (PyObj n (KNumber (NInt 0)) []), S n).
Proof. done. Qed.

Lemma differentiate_Symbol id value operands c kw var n :
  kw !! "var" = Some var →
  differentiate (PyObj id (KSymbol value) operands) c kw n
  = (Ok (PyObj n (KNumber (NInt (if str_eq value var then 1 else 0))) []), S n).
Proof. intros Hvar. unfold differentiate. rewrite Hvar. by destruct (str_eq value var). Qed.

Lemma differentiate_Add id operands c0 c1 kw n :
  isinstance_Expression c0 = true → isinstance_Expression c1 = true →
  differentiate (PyObj id KAdd operands) [c0; c1] kw n
  = (Ok (PyObj n KAdd [c0; c1]), S n).
Proof. intros. by run_rule. Qed.

Lemma differentiate_Sub id operands c0 c1 kw n :
  isinstance_Expression c0 = true → isinstance_Expression c1 = true →
  differentiate (PyObj id KSub operands) [c0; c1] kw n
  = (Ok (PyObj n KSub [c0; c1]), S n).
Proof. intros. by run_rule. Qed.

Lemma differentiate_Mul id a b c0 c1 kw n :
  isinstance_Expression a = true → isinstance_Expression b = true →
  isinstance_Expression c0 = true → isinstance_Expression c1 = true →
  differentiate (PyObj id KMul [a; b]) [c0; c1] kw n
  = (Ok (PyObj (n + 2) KAdd
           [PyObj n KMul [c0; b]; PyObj (n + 1) KMul [c1; a]]), n + 3).
Proof.
  intros. run_rule. by replace (S n) with (n + 1) by lia;
    replace (S (n + 1)) with (n + 2) by lia; replace (S (n + 2)) with (n + 3) by lia.
Qed.

Lemma differentiate_Div id a b c0 c1 kw n :
  isinstance_Expression a = true → isinstance_Expression b = true →
  isinstance_Expression c0 = true → isinstance_Expression c1 = true →
  differentiate (PyObj id KDiv [a; b]) [c0; c1] kw n
  = (Ok (PyObj (n + 5) KDiv
           [PyObj (n + 2) KSub
              [PyObj n KMul [c0; b]; PyObj (n + 1) KMul [c1; a]];
            PyObj (n + 4) KPow [b; PyObj (n + 3) (KNumber (NInt 2)) []]]), n + 6).
Proof.
  intros. run_rule.
  replace (S n) with (n + 1) by lia. replace (S (n + 1)) with (n + 2) by lia.
  replace (S (n + 2)) with (n + 3) by lia. replace (S (n + 3)) with (n + 4) by lia.
  replace (S (n + 4)) with (n + 5) by lia. by replace (S (n + 5)) with (n + 6) by lia.
Qed.

Lemma differentiate_Pow id a b c kw n :
  isinstance_Expression a = true → isinstance_Expression b = true →
  differentiate (PyObj id KPow [a; b]) c kw n
  = (Ok (PyObj (n + 3) KMul
           [b; PyObj (n + 2) KPow
                 [a; PyObj (n + 1) KSub [b; PyObj n (KNumber (NInt 1)) []]]]), n + 4).
Proof.
  intros. run_rule.
  replace (S n) with (n + 1) by lia. replace (S (n + 1)) with (n + 2) by lia.
  replace (S (n + 2)) with (n + 3) by lia. by replace (S (n + 3)) with (n + 4) by lia.
Qed.

Lemma differentiate_unsupported id name operands c kw n :
  differentiate (PyObj id (KOther name) operands) c kw n
  = (Raise (NotImplementedError ("Cannot differentiate a " +:+ name)), n).
Proof. done. Qed.

(** ** Differentiation through the visitor *)

Ltac invert_as_expr H :=
  match type of H with
  | as_expr ?v = Some _ =>
      destruct v as [?|?| |? [] [|? [|? [|? ?]]]]; simpl in H; try discriminate H
  end.

Lemma as_expr_node_ok v t : as_expr v = Some t → node_ok v.
Proof. intros H. by invert_as_expr H. Qed.

Lemma as_expr_subvalues root t v :
  as_expr root = Some t → v ∈ subvalues root → is_Some (as_expr v).
Proof.
  remember (weight root) as n eqn:Hn. revert root t Hn.
  induction (lt_wf n) as [n _ IH]. intros root t -> Ht Hv.
  apply subvalues_inv in Hv as [->|(id & cls & operands & c & -> & Hc & Hv)]; [done|].
  assert (is_Some (as_expr c)) as [tc Htc].
  { destruct cls, operands as [|a [|b [|]]]; simpl in Ht; try discriminate Ht;
      try (by apply elem_of_nil in Hc);
      destruct (as_expr a) eqn:?; try discriminate Ht;
      destruct (as_expr b) eqn:?; try discriminate Ht;
      apply elem_of_cons in Hc as [->|Hc]; try done;
      apply elem_of_cons in Hc as [->|Hc]; try done;
      by apply elem_of_nil in Hc. }
  eapply IH; [|done..]. by apply weight_operand.
Qed.

Lemma Forall2_elem_of_l {A B} (P : A → B → Prop) l k :
  Forall2 P l k → Forall2 (λ x y, x ∈ l ∧ P x y) l k.
Proof.
  induction 1 as [|x y l k Hxy _ IH]; constructor.
  - split; [by left|done].
  - eapply Forall2_impl; [exact IH|]. intros a b [Ha Hab]. split; [by right|done].
Qed.

Section fold.
Context (root : pyval) (var : string) (kw : kwargs).
Hypothesis root_coherent : coherent root.
Hypothesis kw_var : kw !! "var" = Some (PyStr var).

Lemma derivatives_memoized_insert V n n' id cls operands r t :
  derivatives_memoized root var V n →
  PyObj id cls operands ∈ subvalues root →
  as_expr (PyObj id cls operands) = Some t →
  as_expr r = Some (derivative var t) →
  derivatives_memoized root var (<[id := r]> V) n'.
Proof.
  intros HI Hin Ht Hr v r' Hv Hget.
  destruct v as [| | |id' cls' operands']; try done. simpl in Hget.
  destruct (decide (id = id')) as [<-|Hne].
  - rewrite lookup_insert_eq in Hget. injection Hget as <-.
    destruct (root_coherent id cls operands cls' operands' Hin Hv) as [<- <-].
    by exists t.
  - rewrite lookup_insert_ne in Hget by done. by apply (HI _ _ Hv).
Qed.

Lemma differentiate_visit id cls operands V n results :
  PyObj id cls operands ∈ subvalues root →
  node_ok (PyObj id cls operands) →
  derivatives_memoized root var V n →
  visited_results V operands = Some results →
  match differentiate (PyObj id cls operands) results kw n with
  | (Ok r, n') => derivatives_memoized root var (<[id := r]> V) n'
  | (Raise e, _) =>
      ∃ name, cls = KOther name ∧
              e = NotImplementedError ("Cannot differentiate a " +:+ name)
  end.
Proof.
  intros Hin Hok HI Hres.
  assert (Forall2 (λ child r, ∃ t, as_expr child = Some t ∧
                     as_expr r = Some (derivative var t)) operands results) as Hch.
  { eapply Forall2_impl.
    - by apply Forall2_elem_of_l, visited_results_Forall2.
    - intros child r [Hc Hget]. apply (HI child r); [|done].
      by eapply subvalues_operand. }
  destruct cls as [value|value| | | | | |name]; simpl in Hok.
  - subst operands. rewrite differentiate_Number.
    by eapply derivatives_memoized_insert.
  - subst operands. rewrite (differentiate_Symbol _ _ _ _ _ _ _ kw_var).
    eapply derivatives_memoized_insert; [done..|].
    unfold str_eq. simpl. by destruct (bool_decide (value = var)).
  - destruct operands as [|a [|b [|]]]; try done.
    apply Forall2_cons_inv_l in Hch as (c0 & rest & (ta & Ha & H0) & Hch & ->).
    apply Forall2_cons_inv_l in Hch as (c1 & rest' & (tb & Hb & H1) & Hch & ->).
    apply Forall2_nil_inv_l in Hch as ->.
    rewrite differentiate_Add by by eapply as_expr_object.
    eapply derivatives_memoized_insert; [done|done|..].
    + simpl. by rewrite Ha, Hb.
    + simpl. by rewrite H0, H1.
  - destruct operands as [|a [|b [|]]]; try done.
    apply Forall2_cons_inv_l in Hch as (c0 & rest & (ta & Ha & H0) & Hch & ->).
    apply Forall2_cons_inv_l in Hch as (c1 & rest' & (tb & Hb & H1) & Hch & ->).
    apply Forall2_nil_inv_l in Hch as ->.
    rewrite differentiate_Sub by by eapply as_expr_object.
    eapply derivatives_memoized_insert; [done|done|..].
    + simpl. by rewrite Ha, Hb.
    + simpl. by rewrite H0, H1.
  - destruct operands as [|a [|b [|]]]; try done.
    apply Forall2_cons_inv_l in Hch as (c0 & rest & (ta & Ha & H0) & Hch & ->).
    apply Forall2_cons_inv_l in Hch as (c1 & rest' & (tb & Hb & H1) & Hch & ->).
    apply Forall2_nil_inv_l in Hch as ->.
    rewrite differentiate_Mul by by eapply as_expr_object.
    eapply derivatives_memoized_insert; [done|done|..].
    + simpl. by rewrite Ha, Hb.
    + simpl. by rewrite H0, H1, Ha, Hb.
  - destruct operands as [|a [|b [|]]]; try done.
    apply Forall2_cons_inv_l in Hch as (c0 & rest & (ta & Ha & H0) & Hch & ->).
    apply Forall2_cons_inv_l in Hch as (c1 & rest' & (tb & Hb & H1) & Hch & ->).
    apply Forall2_nil_inv_l in Hch as ->.
    rewrite differentiate_Div by by eapply as_expr_object.
    eapply derivatives_memoized_insert; [done|done|..].
    + simpl. by rewrite Ha, Hb.
    + simpl. by rewrite H0, H1, Ha, Hb.
  - destruct operands as [|a [|b [|]]]; try done.
    apply Forall2_cons_inv_l in Hch as (c0 & rest & (ta & Ha & H0) & Hch & ->).
    apply Forall2_cons_inv_l in Hch as (c1 & rest' & (tb & Hb & H1) & Hch & ->).
    apply Forall2_nil_inv_l in Hch as ->.
    rewrite differentiate_Pow by by eapply as_expr_object.
    eapply derivatives_memoized_insert; [done|done|..].
    + simpl. by rewrite Ha, Hb.
    + simpl. by rewrite Ha, Hb.
  - rewrite differentiate_unsupported. by exists name.
Qed.

(** Folding [differentiate] over a graph of terminals, binary operators and
    nodes of other classes either returns a node denoting the derivative of
    the expression the graph denotes, or raises the unsupported-node error
    of a node of another class that occurs in the graph. *)
Lemma differentiate_fold n :
  (∀ v, v ∈ subvalues root → node_ok v) →
  ∃ n',
    (∃ r t, postvisitor (weight root) root differentiate kw n = (Some (Ok r), n') ∧
            as_expr root = Some t ∧ as_expr r = Some (derivative var t)) ∨
    (∃ id name operands,
        PyObj id (KOther name) operands ∈ subvalues root ∧
        postvisitor (weight root) root differentiate kw n
        = (Some (Raise (NotImplementedError ("Cannot differentiate a " +:+ name))), n')).
Proof.
  intros Hok.
  destruct (finishes_entry differentiate kw
              (λ e _, ∃ id name operands,
                  PyObj id (KOther name) operands ∈ subvalues root ∧
                  e = NotImplementedError ("Cannot differentiate a " +:+ name))
              (λ v, v ∈ subvalues root) (derivatives_memoized root var) (λ _ _ _, True))
    with (node := root) (V := (∅ : gmap ident pyval)) (s := n)
    as (m & Hm & Hrun).
  - intros id cls operands child Hin Hc. by eapply subvalues_operand.
  - intros v V s Hv Hf. apply Hok in Hv. by destruct v.
  - intros id cls operands V s results Hin HI Hres.
    pose proof (differentiate_visit id cls operands V s results Hin (Hok _ Hin) HI Hres) as Hv.
    destruct (differentiate _ _ _ _) as [[r|e] s']; [done|].
    destruct Hv as (name & -> & ->). by exists id, name, operands.
  - apply subvalues_self.
  - by intros v r _ Hget; destruct v.
  - destruct Hrun as [(V' & n' & (HI & _ & _ & Hvis) & Hrun)
                     |(e & n' & (id & name & operands & Hin & ->) & Hrun)].
    + exists n'. left.
      pose proof (Hrun (weight root - m) []) as Hend.
      replace (m + (weight root - m)) with (weight root) in Hend by lia.
      change ([root] ++ []) with [root] in Hend.
      assert (∃ r, visited_get V' root = Some r) as [r Hr].
      { destruct root as [| | |id cls operands]; try done. simpl in *.
        apply bool_decide_eq_false in Hvis. by apply not_eq_None_Some in Hvis as [r ?]; exists r. }
      destruct (HI root r (subvalues_self root) Hr) as (t & Ht & Hd).
      exists r, t. split_and!; [|done..].
      unfold postvisitor. by rewrite Hend, postvisitor_loop_nil, Hr.
    + exists n'. right. exists id, name, operands. split; [done|].
      pose proof (Hrun (weight root - m) []) as Hend.
      replace (m + (weight root - m)) with (weight root) in Hend by lia.
      change ([root] ++ []) with [root] in Hend.
      unfold postvisitor. by rewrite Hend.
Qed.

End fold.

(** ** Construction *)

Lemma Expression_init_length operands n :
  ∃ l n', Expression_init operands n = (Ok l, n') ∧ length l = length operands.
Proof.
  revert n. induction operands as [|x rest IH]; intros n; [by exists [], n|].
  simpl. unfold mbind, M_bind, bind.
  destruct x as [k|t| |id cls ops]; simpl.
  - destruct (IH (S n)) as (l & n' & -> & Hl). eexists _, _. split; [done|]. simpl. by rewrite Hl.
  - destruct (IH n) as (l & n' & -> & Hl). eexists _, _. split; [done|]. simpl. by rewrite Hl.
  - destruct (IH n) as (l & n' & -> & Hl). eexists _, _. split; [done|]. simpl. by rewrite Hl.
  - destruct (IH n) as (l & n' & -> & Hl). eexists _, _. split; [done|]. simpl. by rewrite Hl.
Qed.

Lemma new_operator_length cls operands n :
  ∃ l n', new_operator cls operands n = (Ok (PyObj n cls l), n') ∧
          length l = length operands.
Proof.
  unfold new_operator, mbind, M_bind, bind, fresh.
  destruct (Expression_init_length operands (S n)) as (l & n' & -> & Hl).
  by exists l, n'.
Qed.

(** C6.  [Number(v)] succeeds exactly when [v] is a host number and raises
    [TypeError] exactly when it is not; [Symbol(name)] succeeds exactly when
    [name] is text and raises [TypeError] exactly when it is not.  In
    particular [Symbol(42)] and [Number("abc")] raise [TypeError]. *)
Theorem terminal_construction (v : pyval) (n : nat) :
  ((∃ k, v = PyNum k ∧ Number v n = (Ok (PyObj n (KNumber k) []), S n))
   ↔ isinstance_Num v = true) ∧
  ((Number v n).1 = Raise TypeError ↔ isinstance_Num v = false) ∧
  ((∃ s, v = PyStr s ∧ Symbol v n = (Ok (PyObj n (KSymbol s) []), S n))
   ↔ isinstance_str v = true) ∧
  ((Symbol v n).1 = Raise TypeError ↔ isinstance_str v = false) ∧
  (Symbol (PyNum (NInt 42)) n).1 = Raise TypeError ∧
  (Number (PyStr "abc") n).1 = Raise TypeError.
Proof.
  split_and!; [| | | |done|done].
  - split; [by intros (k & -> & _)|]. destruct v; try done. by eexists.
  - by destruct v.
  - split; [by intros (k & -> & _)|]. destruct v; try done. by eexists.
  - by destruct v.
Qed.

(** C10.  [Symbol("")] succeeds: it constructs a [Symbol] node whose value
    is the empty text and whose operands are empty. *)
Theorem Symbol_accepts_empty_text (n : nat) :
  Symbol (PyStr "") n = (Ok (PyObj n (KSymbol "") []), S n).
Proof. done. Qed.

(** C7, as the claim states it, fails when both operands are host numbers:
    [3 + 4] is evaluated by the host and no [Add] node is built.  It also
    fails for a fraction raised to an Expression: whatever float the host
    converts [Fraction(1, 2)] to, [Fraction(1, 2) ** x] is no [Pow] node
    with the operands [(Number(Fraction(1, 2)), x)]. *)
Lemma compose_numbers_counterexample :
  (¬ ∃ m, compose OpAdd (PyNum (NInt 3)) (PyNum (NInt 4)) = Method m) ∧
  (∀ float m n r n',
     evaluate float (compose OpPow (PyNum (NFraction 1 2)) x_node) = Some m →
     m n = (Ok r, n') →
     r ≠ PyObj n KPow [PyObj (S n) (KNumber (NFraction 1 2)) []; x_node]).
Proof.
  split; [by intros [m Hm]|].
  intros float m n r n' [= <-]. by destruct (float 1%Z 2%Z); intros [= <- _].
Qed.

(** C7, amended.  For Expression-or-number values [e1], [e2] of which at
    least one is an Expression, and every operator [OP] of [+ - * / **],
    unless [OP] is [**] and [e1] is a fraction, [e1 OP e2] builds a node of
    the class of [OP] whose operands are [e1] and [e2] in that order, a host
    number being replaced by a new [Number] node and an Expression being
    kept as it is; in particular [k - e] has the operands [(Number(k), e)].
    For a fraction [q], [q ** e] has the operands [(Number(float(q)), e)],
    and when [float(q)] raises, that exception is raised and no node is
    built. *)
Theorem composition_operands (op : binop) (e1 e2 : pyval) (n : nat) :
  isinstance_Expression e1 = true ∨ isinstance_Num e1 = true →
  isinstance_Expression e2 = true ∨ isinstance_Num e2 = true →
  isinstance_Expression e1 = true ∨ isinstance_Expression e2 = true →
  ((op = OpPow → ∀ a b, e1 ≠ PyNum (NFraction a b)) →
   ∃ m n', compose op e1 e2 = Method m ∧
           m n = (Ok (PyObj n (binop_kind op) [boxed (S n) e1; boxed (S n) e2]), n')) ∧
  (∀ k, e1 = PyNum k →
     ∃ m, compose OpSub e1 e2 = Method m ∧
          m n = (Ok (PyObj n KSub [PyObj (S n) (KNumber k) []; e2]), S (S n))) ∧
  (∀ a b float, e1 = PyNum (NFraction a b) →
     ∃ m, evaluate float (compose OpPow e1 e2) = Some m ∧
          m n = match float a b with
                | Ok bits =>
                    (Ok (PyObj n KPow [PyObj (S n) (KNumber (NFloat bits)) []; e2]),
                     S (S n))
                | Raise e => (Raise e, n)
                end).
Proof.
  intros H1 H2 H12.
  destruct e1 as [k1|?| |id1 cls1 ops1], e2 as [k2|?| |id2 cls2 ops2];
    simpl in *; try (by destruct H1); try (by destruct H2); try (by destruct H12).
  - split_and!.
    + intros Hq. destruct k1; try (destruct op; by eexists _, _).
      destruct op; try (by eexists _, _). by destruct (Hq eq_refl numerator denominator).
    + intros k [= <-]. destruct k1; by eexists.
    + intros a b float [= ->]. eexists. split; [done|]. by destruct (float a b).
  - split_and!; [intros _; destruct op; by eexists _, _|by intros k|by intros a b float].
  - split_and!; [intros _; destruct op; by eexists _, _|by intros k|by intros a b float].
Qed.

(** C7 at [5 - x], at [Fraction(1, 2) ** x] on a host where
    [float(Fraction(1, 2))] is the float of bit pattern [0x3FE0000000000000],
    and at [Fraction(10 ** 400) ** x] on a host where that fraction is out of
    the range of floats. *)
Lemma composition_operands_witness :
  (∃ m n', compose OpSub (PyNum (NInt 5)) x_node = Method m ∧
           m 1 = (Ok (PyObj 1 KSub [PyObj 2 (KNumber (NInt 5)) []; x_node]), n')) ∧
  (∃ m, evaluate (λ _ _, Ok 4602678819172646912%Z)
          (compose OpPow (PyNum (NFraction 1 2)) x_node) = Some m ∧
        m 1 = (Ok (PyObj 1 KPow
                     [PyObj 2 (KNumber (NFloat 4602678819172646912)) []; x_node]), 3)) ∧
  (∃ m, evaluate (λ _ _, Raise OverflowError)
          (compose OpPow (PyNum (NFraction (10 ^ 400) 1)) x_node) = Some m ∧
        m 1 = (Raise OverflowError, 1)).
Proof.
  split_and!.
  - destruct (composition_operands OpSub (PyNum (NInt 5)) x_node 1) as [H _].
    + right. reflexivity.
    + left. reflexivity.
    + right. reflexivity.
    + apply H. intros Hop. discriminate Hop.
  - destruct (composition_operands OpPow (PyNum (NFraction 1 2)) x_node 1)
      as (_ & _ & H).
    + right. reflexivity.
    + left. reflexivity.
    + right. reflexivity.
    + exact (H 1%Z 2%Z (λ _ _, Ok 4602678819172646912%Z) eq_refl).
  - destruct (composition_operands OpPow (PyNum (NFraction (10 ^ 400) 1)) x_node 1)
      as (_ & _ & H).
    + right. reflexivity.
    + left. reflexivity.
    + right. reflexivity.
    + exact (H (10 ^ 400)%Z 1%Z (λ _ _, Raise OverflowError) eq_refl).
Defined.

(** C8, as the claim states it, fails for an operator class called with one
    operand: [Add(Symbol("x"))] is an [Add] node with a single operand. *)
Lemma operator_arity_counterexample :
  Add [x_node] 1 = (Ok (PyObj 1 KAdd [x_node]), 2) ∧
  length [x_node] ≠ 2.
Proof. done. Qed.

(** C8, amended.  Every [Number] and every [Symbol] that is constructed has
    an empty operands tuple.  An operator node has as many operands as its
    class was called with: exactly two when it is called with two, which is
    what every arithmetic composition does, also the one that the host
    reaches after it has converted a fraction to a float. *)
Theorem construction_operand_counts (v : pyval) (cls : kind) (op : binop)
    (a b : pyval) (operands : list pyval) (n : nat) :
  (∀ id k ops n', Number v n = (Ok (PyObj id k ops), n') → ops = []) ∧
  (∀ id k ops n', Symbol v n = (Ok (PyObj id k ops), n') → ops = []) ∧
  (∃ l n', new_operator cls operands n = (Ok (PyObj n cls l), n') ∧
           length l = length operands) ∧
  (∃ x y n', new_operator cls [a; b] n = (Ok (PyObj n cls [x; y]), n')) ∧
  (∀ m, compose op a b = Method m →
        ∃ x y n', m n = (Ok (PyObj n (binop_kind op) [x; y]), n')) ∧
  (∀ numerator denominator m bits,
     compose op a b = FloatFirst numerator denominator m →
     ∃ x y n', m bits n = (Ok (PyObj n (binop_kind op) [x; y]), n')).
Proof.
  assert (∀ c x y, ∃ x' y' n', new_operator c [x; y] n = (Ok (PyObj n c [x'; y']), n')) as H2.
  { intros c x y. destruct (new_operator_length c [x; y] n) as (l & n' & -> & Hl).
    destruct l as [|x' [|y' [|]]]; try done. by exists x', y', n'. }
  split_and!.
  - intros id k ops n'. destruct v; simpl; by intros [= <- <- <- <-] || intros [=].
  - intros id k ops n'. destruct v; simpl; by intros [= <- <- <- <-] || intros [=].
  - apply new_operator_length.
  - apply H2.
  - intros m. unfold compose.
    destruct a as [[]| | |], b; destruct op; intros [= <-]; apply H2.
  - intros numerator denominator m bits. unfold compose.
    destruct a as [[]| | |], b; destruct op; intros [= _ _ <-]; apply H2.
Qed.

(** ** The example graphs *)

Ltac elements H :=
  repeat (apply elem_of_cons in H as [H|H]); [..|by apply elem_of_nil in H].

Lemma x_plus_y_coherent : coherent x_plus_y.
Proof.
  intros id cls1 ops1 cls2 ops2 H1 H2. simpl in H1, H2.
  elements H1; elements H2; by simplify_eq.
Qed.

Lemma shared_graph_coherent : coherent shared_graph.
Proof.
  intros id cls1 ops1 cls2 ops2 H1 H2. simpl in H1, H2.
  elements H1; elements H2; by simplify_eq.
Qed.

Lemma unsupported_graph_coherent : coherent unsupported_graph.
Proof.
  intros id cls1 ops1 cls2 ops2 H1 H2. simpl in H1, H2.
  elements H1; elements H2; by simplify_eq.
Qed.

Lemma shared_graph_expressions v :
  v ∈ subvalues shared_graph → isinstance_Expression v = true.
Proof. intros H. simpl in H. elements H; by subst. Qed.

Lemma unsupported_graph_ok v : v ∈ subvalues unsupported_graph → node_ok v.
Proof. intros H. simpl in H. elements H; by subst. Qed.

(** ** The claims on the visitor and on differentiation *)

(** C1.  On the graph of [x + (x + y)], built by the module's own
    constructors, the node [x] is an operand of two parents and the graph
    has four distinct nodes; a visitor that only returns is called five
    times, twice of them on [x], and so is [differentiate], which builds the
    derivative of [x] twice. *)
Theorem postvisitor_revisits_shared_node :
  shared_subexpression 0 = (Ok shared_graph, 4) ∧
  size (identities shared_graph) = 4 ∧
  (∃ log,
     postvisitor (weight shared_graph) shared_graph (traced unit_visitor) ∅ ((), [])
     = (Some (Ok ()), ((), log)) ∧
     call_node <$> log = [y_node; x_node; x_plus_y; x_node; shared_graph] ∧
     length log = 5 ∧
     calls_on 0 log = 2) ∧
  (∃ r n log,
     postvisitor (weight shared_graph) shared_graph (traced differentiate)
       {["var" := PyStr "x"]} (4, [])
     = (Some (Ok r), (n, log)) ∧
     call_node <$> log = [y_node; x_node; x_plus_y; x_node; shared_graph] ∧
     call_result <$> filter (λ c, call_id c = Some 0) log
     = [Ok (PyObj 5 (KNumber (NInt 1)) []); Ok (PyObj 7 (KNumber (NInt 1)) [])]).
Proof.
  split; [done|]. split; [by vm_compute|]. split.
  - eexists. split; [by vm_compute|]. by vm_compute.
  - eexists _, _, _. split; [by vm_compute|]. by vm_compute.
Qed.

(** C3, at [x + (x + y)] with the visitor [differentiate] and the keyword
    argument [var="x"]: the calls take and return nodes, and each receives
    the keyword argument. *)
Lemma postvisitor_postorder_witness :
  ∃ o s' log c,
    postvisitor (weight shared_graph) shared_graph differentiate
      {["var" := PyStr "x"]} 4 = (Some o, s') ∧
    postvisitor (weight shared_graph) shared_graph (traced differentiate)
      {["var" := PyStr "x"]} (4, []) = (Some o, (s', log)) ∧
    last log = Some c ∧
    call_result c = o ∧
    (∀ r, o = Ok r → call_node c = shared_graph) ∧
    postorder_log {["var" := PyStr "x"]} log.
Proof.
  apply (postvisitor_postorder differentiate {["var" := PyStr "x"]} shared_graph 4).
  exact shared_graph_expressions.
Defined.

(** C4.  Each registered rule builds exactly the tree of the rule table
    from the results [c0], [c1] of the operands and the operands [a], [b]
    themselves, which it shares with the node it differentiates; the new
    nodes take the next unused identities.  The [Symbol] rule gives
    [Number(1)] when the keyword argument [var] is the text the symbol
    holds, and [Number(0)] for every other value of [var].  The [Pow] rule
    never reads the results, whatever they are. *)
Theorem differentiation_rules (id : ident) (a b c0 c1 var : pyval)
    (kw : kwargs) (n : nat) :
  isinstance_Expression a = true → isinstance_Expression b = true →
  isinstance_Expression c0 = true → isinstance_Expression c1 = true →
  kw !! "var" = Some var →
  (∀ value operands c,
     differentiate (PyObj id (KNumber value) operands) c kw n
     = (Ok (PyObj n (KNumber (NInt 0)) []), S n)) ∧
  (∀ value operands c,
     var = PyStr value →
     differentiate (PyObj id (KSymbol value) operands) c kw n
     = (Ok (PyObj n (KNumber (NInt 1)) []), S n)) ∧
  (∀ value operands c,
     var ≠ PyStr value →
     differentiate (PyObj id (KSymbol value) operands) c kw n
     = (Ok (PyObj n (KNumber (NInt 0)) []), S n)) ∧
  differentiate (PyObj id KAdd [a; b]) [c0; c1] kw n
  = (Ok (PyObj n KAdd [c0; c1]), S n) ∧
  differentiate (PyObj id KSub [a; b]) [c0; c1] kw n
  = (Ok (PyObj n KSub [c0; c1]), S n) ∧
  differentiate (PyObj id KMul [a; b]) [c0; c1] kw n
  = (Ok (PyObj (n + 2) KAdd
           [PyObj n KMul [c0; b]; PyObj (n + 1) KMul [c1; a]]), n + 3) ∧
  differentiate (PyObj id KDiv [a; b]) [c0; c1] kw n
  = (Ok (PyObj (n + 5) KDiv
           [PyObj (n + 2) KSub
              [PyObj n KMul [c0; b]; PyObj (n + 1) KMul [c1; a]];
            PyObj (n + 4) KPow [b; PyObj (n + 3) (KNumber (NInt 2)) []]]), n + 6) ∧
  (∀ c, differentiate (PyObj id KPow [a; b]) c kw n
        = (Ok (PyObj (n + 3) KMul
                 [b; PyObj (n + 2) KPow
                       [a; PyObj (n + 1) KSub
                             [b; PyObj n (KNumber (NInt 1)) []]]]), n + 4)).
Proof.
  intros Ha Hb H0 H1 Hvar. split_and!.
  - intros. apply differentiate_Number.
  - intros value operands c ->. rewrite (differentiate_Symbol _ _ _ _ _ _ _ Hvar).
    simpl. by rewrite bool_decide_eq_true_2.
  - intros value operands c Hne. rewrite (differentiate_Symbol _ _ _ _ _ _ _ Hvar).
    destruct var as [|text| |]; try done. simpl.
    rewrite bool_decide_eq_false_2; [done|]. by intros ->.
  - by apply differentiate_Add.
  - by apply differentiate_Sub.
  - by apply differentiate_Mul.
  - by apply differentiate_Div.
  - intros c. by apply differentiate_Pow.
Qed.

(** C4 at the symbols [x] and [y] and at the product [x * y] with the
    results [Number(1)], [Number(0)], differentiated with respect to [x]. *)
Lemma differentiation_rules_witness :
  differentiate x_node [] {["var" := PyStr "x"]} 5
  = (Ok (PyObj 5 (KNumber (NInt 1)) []), 6) ∧
  differentiate y_node [] {["var" := PyStr "x"]} 5
  = (Ok (PyObj 5 (KNumber (NInt 0)) []), 6) ∧
  differentiate (PyObj 2 KMul [x_node; y_node])
    [PyObj 4 (KNumber (NInt 1)) []; PyObj 3 (KNumber (NInt 0)) []]
    {["var" := PyStr "x"]} 5
  = (Ok (PyObj 7 KAdd
           [PyObj 5 KMul [PyObj 4 (KNumber (NInt 1)) []; y_node];
            PyObj 6 KMul [PyObj 3 (KNumber (NInt 0)) []; x_node]]), 8).
Proof.
  destruct (differentiation_rules 2 x_node y_node
              (PyObj 4 (KNumber (NInt 1)) []) (PyObj 3 (KNumber (NInt 0)) [])
              (PyStr "x") {["var" := PyStr "x"]} 5)
    as (_ & Hone & Hzero & _ & _ & Hmul & _); try reflexivity.
  split_and!.
  - apply (Hone "x" [] []). reflexivity.
  - apply (Hzero "y" [] []). intros Heq. discriminate Heq.
  - exact Hmul.
Defined.

(** C5.  The rule for a class outside the table raises the unsupported-node
    error that names the class, whatever results and keyword arguments it is
    given.  Folded by [postvisitor] over a graph whose other nodes are
    terminals and binary operators, that error is what the caller of
    [postvisitor] receives. *)
Theorem differentiate_unsupported_kind (root : pyval) (var : string)
    (kw : kwargs) (n : nat) :
  coherent root →
  (∀ v, v ∈ subvalues root → node_ok v) →
  kw !! "var" = Some (PyStr var) →
  (∃ id name operands, PyObj id (KOther name) operands ∈ subvalues root) →
  (∀ id name operands c kw0 n0,
     differentiate (PyObj id (KOther name) operands) c kw0 n0
     = (Raise (NotImplementedError ("Cannot differentiate a " +:+ name)), n0)) ∧
  (∃ id name operands n',
     PyObj id (KOther name) operands ∈ subvalues root ∧
     postvisitor (weight root) root differentiate kw n
     = (Some (Raise (NotImplementedError ("Cannot differentiate a " +:+ name))), n')).
Proof.
  intros Hco Hok Hvar (id0 & name0 & ops0 & Hin0). split.
  { intros. apply differentiate_unsupported. }
  destruct (differentiate_fold root var kw Hco Hvar n Hok)
    as (n' & [(r & t & _ & Ht & _)|(id & name & ops & Hin & Hrun)]).
  - by destruct (as_expr_subvalues root t _ Ht Hin0).
  - by exists id, name, ops, n'.
Qed.

(** C5 at a node of class [Mod] over [x] and [y]. *)
Lemma differentiate_unsupported_kind_witness :
  (∀ id name operands c kw0 n0,
     differentiate (PyObj id (KOther name) operands) c kw0 n0
     = (Raise (NotImplementedError ("Cannot differentiate a " +:+ name)), n0)) ∧
  (∃ id name operands n',
     PyObj id (KOther name) operands ∈ subvalues unsupported_graph ∧
     postvisitor (weight unsupported_graph) unsupported_graph differentiate
       {["var" := PyStr "x"]} 3
     = (Some (Raise (NotImplementedError ("Cannot differentiate a " +:+ name))), n')).
Proof.
  apply (differentiate_unsupported_kind unsupported_graph "x"
           {["var" := PyStr "x"]} 3).
  - exact unsupported_graph_coherent.
  - exact unsupported_graph_ok.
  - reflexivity.
  - exists 2, "Mod", [x_node; y_node]. simpl. left.
Defined.

(** C2, as the claim states it, fails on [x + y]: called directly, with
    the variable as positional or as keyword argument, [differentiate] finds
    no results of the operands and raises [IndexError], while the fold of
    [differentiate] by [postvisitor] returns the derivative. *)
Lemma differentiate_direct_call_counterexample :
  (differentiate x_plus_y [PyStr "x"] ∅ 3).1 = Raise IndexError ∧
  (differentiate x_plus_y [] {["var" := PyStr "x"]} 3).1 = Raise IndexError ∧
  (postvisitor (weight x_plus_y) x_plus_y differentiate {["var" := PyStr "x"]} 3).1
  = Some (Ok (PyObj 5 KAdd
                [PyObj 4 (KNumber (NInt 1)) []; PyObj 3 (KNumber (NInt 0)) []])).
Proof. split_and!; by vm_compute. Qed.

(** C2, amended.  [differentiate] is the rule that [postvisitor] folds, not
    an entry point.  For every expression and every variable name,
    [postvisitor(expr, differentiate, var=var)] returns an Expression, which
    denotes the derivative the rule table defines.  A direct call of
    [differentiate] on an [Add], [Sub], [Mul] or [Div] with fewer than two
    positional arguments after the node raises [IndexError], whatever the
    operands of the node, the arguments and the keyword arguments are: so do
    [differentiate(expr, var=var)], which passes none, and
    [differentiate(expr, var)], which passes the variable as the only one. *)
Theorem differentiate_by_postvisitor (root : pyval) (t : expr) (var : string)
    (kw : kwargs) (n : nat) :
  coherent root →
  as_expr root = Some t →
  kw !! "var" = Some (PyStr var) →
  (∃ r n',
     postvisitor (weight root) root differentiate kw n = (Some (Ok r), n') ∧
     isinstance_Expression r = true ∧
     as_expr r = Some (derivative var t)) ∧
  (∀ id cls operands c kw0 n0,
     cls ∈ [KAdd; KSub; KMul; KDiv] → length c < 2 →
     (differentiate (PyObj id cls operands) c kw0 n0).1 = Raise IndexError) ∧
  (∀ id cls operands n0,
     cls ∈ [KAdd; KSub; KMul; KDiv] →
     (differentiate (PyObj id cls operands) [] kw n0).1 = Raise IndexError ∧
     (differentiate (PyObj id cls operands) [PyStr var] ∅ n0).1 = Raise IndexError).
Proof.
  intros Hco Ht Hvar.
  assert (∀ id cls operands c kw0 n0,
            cls ∈ [KAdd; KSub; KMul; KDiv] → length c < 2 →
            (differentiate (PyObj id cls operands) c kw0 n0).1 = Raise IndexError)
    as Hdirect.
  { intros id cls operands c kw0 n0 Hcls Hc.
    destruct c as [|v [|w c]]; [| |simpl in Hc; lia];
      destruct operands as [|a [|b operands]];
      repeat (apply elem_of_cons in Hcls as [->|Hcls]);
      try (by apply elem_of_nil in Hcls); try done.
    - destruct (new_operator_length KMul [v; b] n0) as (l & n' & Heq & _).
      unfold differentiate, mbind, M_bind, bind, Mul. simpl. by rewrite Heq.
    - destruct (new_operator_length KMul [v; b] n0) as (l & n' & Heq & _).
      unfold differentiate, mbind, M_bind, bind, Mul. simpl. by rewrite Heq. }
  split_and!.
  - destruct (differentiate_fold root var kw Hco Hvar n)
      as (n' & [(r & t' & Hrun & Ht' & Hd)|(id & name & ops & Hin & _)]).
    + intros v Hv. destruct (as_expr_subvalues root t v Ht Hv) as [tv Htv].
      by eapply as_expr_node_ok.
    + exists r, n'. split_and!; [done|by eapply as_expr_object|congruence].
    + by destruct (as_expr_subvalues root t _ Ht Hin).
  - exact Hdirect.
  - intros id cls operands n0 Hcls.
    split; apply Hdirect; (done || (simpl; lia)).
Qed.

(** C2 at [x + (x + y)], differentiated with respect to [x]. *)
Lemma differentiate_by_postvisitor_witness :
  (∃ r n',
     postvisitor (weight shared_graph) shared_graph differentiate
       {["var" := PyStr "x"]} 4 = (Some (Ok r), n') ∧
     isinstance_Expression r = true ∧
     as_expr r
     = Some (derivative "x" (EAdd (ESymbol "x") (EAdd (ESymbol "x") (ESymbol "y"))))) ∧
  (∀ id cls operands c kw0 n0,
     cls ∈ [KAdd; KSub; KMul; KDiv] → length c < 2 →
     (differentiate (PyObj id cls operands) c kw0 n0).1 = Raise IndexError) ∧
  (∀ id cls operands n0,
     cls ∈ [KAdd; KSub; KMul; KDiv] →
     (differentiate (PyObj id cls operands) [] {["var" := PyStr "x"]} n0).1
     = Raise IndexError ∧
     (differentiate (PyObj id cls operands) [PyStr "x"] ∅ n0).1 = Raise IndexError).
Proof.
  apply (differentiate_by_postvisitor shared_graph
           (EAdd (ESymbol "x") (EAdd (ESymbol "x") (ESymbol "y"))) "x"
           {["var" := PyStr "x"]} 4).
  - exact shared_graph_coherent.
  - reflexivity.
  - reflexivity.
Defined.

(** ** Rendering *)

Lemma string_app_assoc (s1 s2 s3 : string) :
  (s1 +:+ s2) +:+ s3 = s1 +:+ s2 +:+ s3.
Proof.
  induction s1 as [|c s1 IH]; [done|].
  change (String c ((s1 +:+ s2) +:+ s3) = String c (s1 +:+ s2 +:+ s3)).
  by f_equal.
Qed.

Lemma as_expr_binop id op a b ta tb :
  as_expr a = Some ta → as_expr b = Some tb →
  as_expr (PyObj id (binop_kind op) [a; b]) = Some (binop_expr op ta tb).
Proof. intros Ha Hb. destruct op; simpl; by rewrite Ha, Hb. Qed.

Lemma as_expr_inv v t :
  as_expr v = Some t →
  (∃ id k, v = PyObj id (KNumber k) [] ∧ t = ENumber k) ∨
  (∃ id s, v = PyObj id (KSymbol s) [] ∧ t = ESymbol s) ∨
  (∃ id op a b ta tb, v = PyObj id (binop_kind op) [a; b] ∧
     as_expr a = Some ta ∧ as_expr b = Some tb ∧ t = binop_expr op ta tb).
Proof.
  intros H. destruct v as [| | |id cls operands]; try done.
  destruct cls, operands as [|a [|b [|]]]; simpl in H; try discriminate H;
    try (injection H as <-; naive_solver);
    destruct (as_expr a) as [ta|] eqn:Ha; try discriminate H;
    destruct (as_expr b) as [tb|] eqn:Hb; try discriminate H;
    injection H as <-; right; right.
  - by exists id, OpAdd, a, b, ta, tb.
  - by exists id, OpSub, a, b, ta, tb.
  - by exists id, OpMul, a, b, ta, tb.
  - by exists id, OpDiv, a, b, ta, tb.
  - by exists id, OpPow, a, b, ta, tb.
Qed.

Lemma render_binop str_num op ta tb sa sb :
  render str_num ta = Ok sa → render str_num tb = Ok sb →
  render str_num (binop_expr op ta tb)
  = Ok ((if bool_decide (expr_prec ta < operator_prec op)
         then "(" +:+ sa +:+ ")" else sa)
        +:+ " " +:+ operator_symbol op +:+ " "
        +:+ (if bool_decide (expr_prec tb < operator_prec op)
             then "(" +:+ sb +:+ ")" else sb)).
Proof.
  intros Ha Hb. destruct op; simpl; rewrite Ha, Hb; simpl;
    by destruct ta, tb.
Qed.

Lemma render_binop_raise_l str_num op ta tb e :
  render str_num ta = Raise e → render str_num (binop_expr op ta tb) = Raise e.
Proof. intros Ha. destruct op; simpl; by rewrite Ha. Qed.

Lemma render_binop_raise_r str_num op ta tb sa e :
  render str_num ta = Ok sa → render str_num tb = Raise e →
  render str_num (binop_expr op ta tb) = Raise e.
Proof. intros Ha Hb. destruct op; simpl; by rewrite Ha, Hb. Qed.

Section rendering_facts.
Context (overflow : list pyval → bool) (str_num : num → result string).
Context (other_prec : string → result nat).
Context (other_str : list pyval → pyval → result string).

#[local] Abbreviation str := (str overflow str_num other_prec other_str).
#[local] Abbreviation getattr_prec := (getattr_prec other_prec).

Lemma getattr_prec_as_expr v t :
  as_expr v = Some t → getattr_prec v = Ok (expr_prec t).
Proof.
  intros [(id & k & -> & ->)|[(id & s & -> & ->)|
          (id & op & a & b & ta & tb & -> & _ & _ & ->)]]%as_expr_inv; try done.
  by destruct op.
Qed.

Lemma str_binop stack id op operands :
  str stack (PyObj id (binop_kind op) operands)
  = if overflow (PyObj id (binop_kind op) operands :: stack)
    then Raise RecursionError
    else Operator___str__ other_prec
           (str (PyObj id (binop_kind op) operands :: stack)) op operands.
Proof. by destruct op. Qed.

(** The rendering of a node from those of its operands. *)
Lemma Operator_str_render (f : pyval → result string) (Q : Prop) op a b ta tb :
  as_expr a = Some ta → as_expr b = Some tb →
  (f a = render str_num ta ∨ f a = Raise RecursionError ∧ Q) →
  (f b = render str_num tb ∨ f b = Raise RecursionError ∧ Q) →
  Operator___str__ other_prec f op [a; b] = render str_num (binop_expr op ta tb) ∨
  Operator___str__ other_prec f op [a; b] = Raise RecursionError ∧ Q.
Proof.
  intros Ha Hb Hfa Hfb. unfold Operator___str__.
  rewrite (getattr_prec_as_expr a ta Ha), (getattr_prec_as_expr b tb Hb). simpl.
  destruct Hfa as [->|[-> HQ]]; [|by right].
  destruct (render str_num ta) as [sa|e] eqn:Hra; simpl;
    [|left; by rewrite (render_binop_raise_l _ _ _ _ _ Hra)].
  destruct Hfb as [->|[-> HQ]]; [|by right].
  destruct (render str_num tb) as [sb|e] eqn:Hrb; simpl;
    [|left; by rewrite (render_binop_raise_r _ _ _ _ _ _ Hra Hrb)].
  left. rewrite (render_binop _ op _ _ _ _ Hra Hrb). by rewrite ?string_app_assoc.
Qed.

Lemma str_as_expr v t stack :
  as_expr v = Some t →
  str stack v = render str_num t ∨
  str stack v = Raise RecursionError ∧ ∃ st, overflow (st ++ stack) = true.
Proof.
  remember (weight v) as n eqn:Hn. revert v t stack Hn.
  induction (lt_wf n) as [n _ IH]. intros v t stack -> Ht.
  destruct (as_expr_inv v t Ht)
    as [(id & k & -> & ->)|[(id & s & -> & ->)|
        (id & op & a & b & ta & tb & -> & Ha & Hb & ->)]].
  - simpl. destruct (overflow (_ :: stack)) eqn:H1.
    { right. split; [done|]. by exists [PyObj id (KNumber k) []]. }
    destruct (overflow (_ :: _ :: stack)) eqn:H2; [|by left].
    right. split; [done|]. by exists [PyNum k; PyObj id (KNumber k) []].
  - simpl. destruct (overflow (_ :: stack)) eqn:H1.
    { right. split; [done|]. by exists [PyObj id (KSymbol s) []]. }
    destruct (overflow (_ :: _ :: stack)) eqn:H2; [|by left].
    right. split; [done|]. by exists [PyStr s; PyObj id (KSymbol s) []].
  - rewrite str_binop. set (x := PyObj id (binop_kind op) [a; b]).
    destruct (overflow (x :: stack)) eqn:H1.
    { right. split; [done|]. by exists [x]. }
    assert (∀ c tc, c ∈ [a; b] → as_expr c = Some tc →
              str (x :: stack) c = render str_num tc ∨
              str (x :: stack) c = Raise RecursionError ∧
              ∃ st, overflow (st ++ stack) = true) as IHc.
    { intros c tc Hc Htc.
      destruct (IH (weight c) (weight_operand _ _ _ _ Hc) c tc (x :: stack) eq_refl Htc)
        as [?|[? [st Hst]]]; [by left|right].
      split; [done|]. exists (st ++ [x]). by rewrite <- app_assoc. }
    apply (Operator_str_render _ _ op a b ta tb Ha Hb).
    + apply IHc; [by left|done].
    + apply IHc; [by right; left|done].
Qed.

End rendering_facts.

Lemma render_nesting str_num op ta tb tc :
  render str_num (binop_expr op ta (binop_expr op tb tc))
  = render str_num (binop_expr op (binop_expr op ta tb) tc).
Proof.
  destruct op; simpl;
    destruct (render str_num ta) as [sa|]; simpl; try done;
    destruct (render str_num tb) as [sb|]; simpl; try done;
    destruct (render str_num tc) as [sc|]; simpl; try done;
    by rewrite ?string_app_assoc.
Qed.

(** X1.  On a graph that denotes an expression, [str] gives the infix text
    of that expression, with [+ - * / ^] between spaces and parentheses
    around an operand of lower precedence, or the exception the host raises
    on one of its numbers; the text does not depend on the identities of
    the nodes or on sharing.  The only other outcome is the
    [RecursionError] of a host whose stack is exhausted by the nesting of
    the calls, and a host whose stack is not gives the text. *)
Theorem str_of_expression (overflow : list pyval → bool)
    (str_num : num → result string) (other_prec : string → result nat)
    (other_str : list pyval → pyval → result string)
    (stack : list pyval) (v : pyval) (t : expr) :
  as_expr v = Some t →
  (str overflow str_num other_prec other_str stack v = render str_num t ∨
   str overflow str_num other_prec other_str stack v = Raise RecursionError ∧
   ∃ st, overflow (st ++ stack) = true) ∧
  ((∀ st, overflow (st ++ stack) = false) →
   str overflow str_num other_prec other_str stack v = render str_num t).
Proof.
  intros Ht.
  pose proof (str_as_expr overflow str_num other_prec other_str v t stack Ht) as H.
  split; [exact H|]. intros Hno.
  destruct H as [H|[_ [st Hst]]]; [exact H|]. by rewrite Hno in Hst.
Qed.

(** X1 at [(x + y) * x ^ 2], on a host whose stack is never exhausted. *)
Lemma str_of_expression_witness :
  str (λ _, false) (λ _, Ok "2") (λ _, Raise AttributeError)
    (λ _ _, Raise AttributeError) [] product_graph
  = Ok "(x + y) * x ^ 2".
Proof.
  destruct (str_of_expression (λ _, false) (λ _, Ok "2") (λ _, Raise AttributeError)
              (λ _ _, Raise AttributeError) [] product_graph
              (EMul (EAdd (ESymbol "x") (ESymbol "y"))
                    (EPow (ESymbol "x") (ENumber (NInt 2)))) eq_refl) as [_ H].
  rewrite H; reflexivity.
Defined.

(** X2.  The text forgets how a chain of one operator is nested: whenever
    [str] returns on [a OP (b OP c)] and on [(a OP b) OP c], it returns the
    same text, for every operator and all expressions [a], [b], [c]; and on
    a host whose stack is not exhausted the two have one outcome.  For [-],
    [/] and [^] these are different expressions. *)
Theorem str_forgets_nesting (overflow : list pyval → bool)
    (str_num : num → result string) (other_prec : string → result nat)
    (other_str : list pyval → pyval → result string)
    (op : binop) (i j i' j' : ident) (a b c : pyval) (ta tb tc : expr)
    (stack stack' : list pyval) :
  as_expr a = Some ta → as_expr b = Some tb → as_expr c = Some tc →
  (∀ s1 s2,
     str overflow str_num other_prec other_str stack
       (PyObj i (binop_kind op) [a; PyObj j (binop_kind op) [b; c]]) = Ok s1 →
     str overflow str_num other_prec other_str stack'
       (PyObj i' (binop_kind op) [PyObj j' (binop_kind op) [a; b]; c]) = Ok s2 →
     s1 = s2) ∧
  ((∀ st, overflow st = false) →
   str overflow str_num other_prec other_str stack
     (PyObj i (binop_kind op) [a; PyObj j (binop_kind op) [b; c]])
   = str overflow str_num other_prec other_str stack'
       (PyObj i' (binop_kind op) [PyObj j' (binop_kind op) [a; b]; c])).
Proof.
  intros Ha Hb Hc.
  pose proof (as_expr_binop i op _ _ _ _ Ha (as_expr_binop j op _ _ _ _ Hb Hc)) as Hr.
  pose proof (as_expr_binop i' op _ _ _ _ (as_expr_binop j' op _ _ _ _ Ha Hb) Hc) as Hl.
  apply (str_as_expr overflow str_num other_prec other_str _ _ stack) in Hr.
  apply (str_as_expr overflow str_num other_prec other_str _ _ stack') in Hl.
  rewrite render_nesting in Hr. split.
  - intros s1 s2 H1 H2.
    destruct Hr as [Hr|[Hr _]]; [|congruence].
    destruct Hl as [Hl|[Hl _]]; congruence.
  - intros Hno.
    destruct Hr as [Hr|[_ [st Hst]]]; [|by rewrite Hno in Hst].
    destruct Hl as [Hl|[_ [st Hst]]]; [|by rewrite Hno in Hst].
    congruence.
Qed.

(** X2 at [x - (y - x)] and [(x - y) - x]. *)
Lemma str_forgets_nesting_witness :
  str (λ _, false) (λ _, Ok "0") (λ _, Raise AttributeError)
    (λ _ _, Raise AttributeError) [] nested_right = Ok "x - y - x" ∧
  str (λ _, false) (λ _, Ok "0") (λ _, Raise AttributeError)
    (λ _ _, Raise AttributeError) [] nested_left = Ok "x - y - x".
Proof.
  destruct (str_forgets_nesting (λ _, false) (λ _, Ok "0") (λ _, Raise AttributeError)
              (λ _ _, Raise AttributeError) OpSub 3 2 3 2 x_node y_node x_node
              (ESymbol "x") (ESymbol "y") (ESymbol "x") [] []
              eq_refl eq_refl eq_refl) as [_ H].
  split; [reflexivity|].
  etrans; [symmetry; exact (H (λ _, eq_refl))|reflexivity].
Defined.

(** X3.  What the constructors accept and [str] cannot render.  An
    operator class called with no operand or with one builds a node on which
    [str] raises [IndexError].  A composition of an Expression with a text,
    which the constructor stores as it is, builds a node on which [str]
    raises [AttributeError]: at once when the text is the left operand, and
    once the left operand has been rendered when it is the right one.  On a
    host whose stack is exhausted by the call on the node itself the
    exception is [RecursionError]. *)
Theorem constructed_not_rendered (overflow : list pyval → bool)
    (str_num : num → result string) (other_prec : string → result nat)
    (other_str : list pyval → pyval → result string)
    (op : binop) (x e : pyval) (text : string) (n : nat) (stack : list pyval) :
  (∃ node n', new_operator (binop_kind op) [] n = (Ok node, n') ∧
     str overflow str_num other_prec other_str stack node
     = if overflow (node :: stack) then Raise RecursionError else Raise IndexError) ∧
  (∃ node n', new_operator (binop_kind op) [x] n = (Ok node, n') ∧
     str overflow str_num other_prec other_str stack node
     = if overflow (node :: stack) then Raise RecursionError else Raise IndexError) ∧
  (∃ node n', reflected op e (PyStr text) n = (Ok node, n') ∧
     str overflow str_num other_prec other_str stack node
     = if overflow (node :: stack) then Raise RecursionError
       else Raise AttributeError) ∧
  (∃ node n', forward op e (PyStr text) n = (Ok node, n') ∧
     ∀ p s, getattr_prec other_prec e = Ok p →
            str overflow str_num other_prec other_str (node :: stack) e = Ok s →
            str overflow str_num other_prec other_str stack node
            = if overflow (node :: stack) then Raise RecursionError
              else Raise AttributeError).
Proof.
  split_and!.
  - eexists _, _. split; [done|]. rewrite str_binop. by destruct (overflow _).
  - destruct (new_operator_length (binop_kind op) [x] n) as (l & n' & Heq & Hl).
    exists (PyObj n (binop_kind op) l), n'. split; [done|].
    destruct l as [|y [|]]; try done. rewrite str_binop. by destruct (overflow _).
  - destruct (new_operator_length (binop_kind op) [PyStr text; e] n)
      as (l & n' & Heq & Hl).
    assert (∃ y, l = [PyStr text; y]) as [y ->].
    { revert Heq. unfold new_operator, mbind, M_bind, bind, fresh. simpl.
      unfold mbind, M_bind, bind. simpl.
      destruct (if isinstance_Num e then Number e else ret e) as [[e'|?] ?]; simpl;
        [|done]. intros [= <- _]. by eexists. }
    exists (PyObj n (binop_kind op) [PyStr text; y]), n'.
    split; [by destruct op|]. rewrite str_binop. by destruct (overflow _).
  - destruct (new_operator_length (binop_kind op) [e; PyStr text] n)
      as (l & n' & Heq & Hl).
    exists (PyObj n (binop_kind op) l), n'. split; [by destruct op|].
    intros p s Hp Hs.
    assert (l = [e; PyStr text]) as ->.
    { destruct e as [k| | |]; try done. revert Heq.
      unfold new_operator, mbind, M_bind, bind, fresh. simpl. by intros [= <- _]. }
    rewrite str_binop. destruct (overflow _); [done|].
    unfold Operator___str__. by rewrite Hp, Hs.
Qed.

(** X3 at [x + "a"], on a host whose stack is never exhausted. *)
Lemma constructed_not_rendered_witness :
  str (λ _, false) (λ _, Ok "0") (λ _, Raise AttributeError)
    (λ _ _, Raise AttributeError) [] (PyObj 1 KAdd [x_node; PyStr "a"])
  = Raise AttributeError.
Proof.
  destruct (constructed_not_rendered (λ _, false) (λ _, Ok "0")
              (λ _, Raise AttributeError) (λ _ _, Raise AttributeError)
              OpAdd x_node x_node "a" 1 [])
    as (_ & _ & _ & node & n' & Hnode & H).
  injection Hnode as <- _.
  exact (H 3 "x" eq_refl eq_refl).
Defined.

(** ** Exceptions raised during a traversal *)

Lemma traced_loop_stops {St R} (fn : @visitor St R) kw fuel stack V s log0 :
  Forall returned log0 →
  let run := postvisitor_loop fuel (traced fn) kw stack V (s, log0) in
  Forall returned run.2.2 ∨
  ∃ before c e, run.2.2 = before ++ [c] ∧ Forall returned before ∧
                call_result c = Raise e ∧ run.1 = Some (Raise e).
Proof.
  revert stack V s log0. induction fuel as [|fuel IH]; intros stack V s log0 Hlog.
  { left. by destruct stack. }
  destruct stack as [|current stack]; [by left|].
  destruct current as [k|t| |id cls operands]; try by left.
  simpl. destruct (filter _ operands) as [|x l]; [|by apply IH].
  destruct (visited_results V operands) as [results|]; [|by left].
  destruct (fn (PyObj id cls operands) results kw s) as [[r|e] s'] eqn:Hfn.
  - apply IH. apply Forall_app. split; [done|]. apply Forall_singleton. by exists r.
  - right. by eexists _, _, e.
Qed.

(** X5.  An exception raised by the visitor ends the traversal: it is the
    outcome of [postvisitor], unchanged, and the call that raised is the last
    call made.  Every call before the last returned, and when [postvisitor]
    returns every call did. *)
Theorem postvisitor_stops_at_first_raise {St R} (fn : @visitor St R)
    (kw : kwargs) (expr : pyval) (s : St) (fuel : nat) :
  let run := postvisitor fuel expr (traced fn) kw (s, []) in
  (∀ before c after,
     run.2.2 = before ++ c :: after → after ≠ [] → returned c) ∧
  (∀ before c e,
     run.2.2 = before ++ [c] → call_result c = Raise e →
     run.1 = Some (Raise e)) ∧
  (∀ r, run.1 = Some (Ok r) → Forall returned run.2.2).
Proof.
  pose proof (traced_loop_stops fn kw fuel [expr] ∅ s [] (Forall_nil_2 _)) as Hloop.
  simpl in Hloop. unfold postvisitor.
  destruct (postvisitor_loop fuel (traced fn) kw [expr] ∅ (s, []))
    as [[[V|e0]|] [s' log]] eqn:Hrun; simpl in *.
  - destruct Hloop as [Hall|(before & c & e & _ & _ & _ & [=])].
    assert ((match visited_get V expr with
             | Some r => (Some (Ok r), (s', log))
             | None => (Some (Raise KeyError), (s', log))
             end).2.2 = log) as Hlog by by destruct (visited_get V expr).
    rewrite Hlog. split_and!.
    + intros before c after -> _. apply Forall_app in Hall as [_ Hall].
      by apply Forall_cons in Hall as [? _].
    + intros before c e -> He. apply Forall_app in Hall as [_ Hall].
      apply Forall_singleton in Hall as [r Hr]. congruence.
    + done.
  - destruct Hloop as [Hall|(before0 & c0 & e & -> & Hall & Hc & [= ->])]; split_and!.
    + intros before c after -> _. apply Forall_app in Hall as [_ Hall].
      by apply Forall_cons in Hall as [? _].
    + intros before c e -> He. apply Forall_app in Hall as [_ Hall].
      apply Forall_singleton in Hall as [r Hr]. congruence.
    + done.
    + intros before c after Heq Hne.
      destruct after as [|z after _] using rev_ind; [done|].
      rewrite app_comm_cons, app_assoc in Heq. apply app_inj_tail in Heq as [-> _].
      apply Forall_app in Hall as [_ Hall]. by apply Forall_cons in Hall as [? _].
    + intros before c e' Heq He'. apply app_inj_tail in Heq as [_ <-]. congruence.
    + done.
  - destruct Hloop as [Hall|(before & c & e & _ & _ & _ & [=])]. split_and!.
    + intros before c after -> _. apply Forall_app in Hall as [_ Hall].
      by apply Forall_cons in Hall as [? _].
    + intros before c e -> He. apply Forall_app in Hall as [_ Hall].
      apply Forall_singleton in Hall as [r Hr]. congruence.
    + done.
Qed.

(** ** What a completed traversal has visited *)

Lemma not_in_visited_false {R} (V : gmap ident R) v :
  not_in_visited V v = false ↔
  ∃ id cls operands, v = PyObj id cls operands ∧ is_Some (V !! id).
Proof.
  destruct v as [| | |id cls operands]; simpl.
  1-3: split; [done|by intros (? & ? & ? & ? & _)].
  rewrite bool_decide_eq_false. split.
  - intros H%not_eq_None_Some. by exists id, cls, operands.
  - intros (? & ? & ? & [= <- <- <-] & H). by apply not_eq_None_Some.
Qed.

Lemma not_in_visited_insert {R} (V : gmap ident R) id r v :
  not_in_visited (<[id := r]> V) v = false →
  (∃ cls operands, v = PyObj id cls operands) ∨ not_in_visited V v = false.
Proof.
  intros (id' & cls & operands & -> & Hs)%not_in_visited_false.
  destruct (decide (id = id')) as [->|Hne]; [left; by eauto|right].
  rewrite lookup_insert_ne in Hs by done. apply not_in_visited_false. by eauto.
Qed.

Lemma visited_results_visited {R} (V : gmap ident R) operands results child :
  visited_results V operands = Some results → child ∈ operands →
  not_in_visited V child = false.
Proof.
  intros Hres Hc. apply visited_results_Forall2 in Hres.
  destruct (proj1 (list_elem_of_lookup _ _) Hc) as [i Hi].
  destruct (Forall2_lookup_l _ _ _ _ _ Hres Hi) as (r & _ & Hr).
  destruct child as [| | |id cls ops]; try done. simpl in *.
  apply bool_decide_eq_false. by rewrite Hr.
Qed.

Section closure.
Context {St R : Type} (fn : @visitor St R) (kw : kwargs) (root : pyval).
Context (P : pyval → Prop).
Hypothesis root_coherent : coherent root.
Hypothesis P_node :
  ∀ id cls operands, (∀ child, child ∈ operands → P child) → P (PyObj id cls operands).


End closure.


(** The calls of a traversal are calls on the nodes of the graph, and every
    node gets one.  Both theorems on the calls of a traversal rest on it. *)
Lemma traversal_covers {St R} (fn : @visitor St R) (kw : kwargs)
    (expr : pyval) (s : St) :
  coherent expr →
  (∀ v, v ∈ subvalues expr → isinstance_Expression v = true) →
  (∀ node o s0, ∃ r s1, fn node o kw s0 = (Ok r, s1)) →
  ∃ r s' log,
    postvisitor (weight expr) expr (traced fn) kw (s, []) = (Some (Ok r), (s', log)) ∧
    (∀ v, v ∈ subvalues expr → ∃ c, c ∈ log ∧ call_node c = v) ∧
    (∀ c, c ∈ log → call_node c ∈ subvalues expr).
Proof.
  intros Hco Hexpr Hfn.
  destruct (finishes_entry (traced fn) kw (λ _ _, False)
              (λ v, v ∈ subvalues expr)
              (λ V sl, V = memo_of sl.2 ∧
                       (∀ c, c ∈ sl.2 → call_node c ∈ subvalues expr) ∧
                       ∀ v u, v ∈ subvalues expr → not_in_visited V v = false →
                              u ∈ subvalues v → not_in_visited V u = false)
              (λ node V sl, ∃ r, visited_get V node = Some r))
    with (node := expr) (V := (∅ : gmap ident R)) (s := (s, @nil (call R)))
    as (n & Hn & Hrun).
  - intros id cls operands child Hin Hc. by eapply subvalues_operand.
  - intros v V s0 Hv Hf. apply Hexpr in Hv. congruence.
  - intros id cls operands V [s0 log] results Hin (-> & Hlog & Hclosed) Hres.
    destruct (Hfn (PyObj id cls operands) results s0) as (r & s1 & Hr).
    simpl. rewrite Hr. simpl. split; [split_and!|].
    + by rewrite memo_of_snoc.
    + intros c [Hc|Hc]%elem_of_app; [by apply Hlog|].
      by apply list_elem_of_singleton in Hc as ->.
    + intros v u Hv [(cls' & ops' & ->)|Hold]%not_in_visited_insert Hu.
      * destruct (Hco id cls operands cls' ops' Hin Hv) as [<- <-].
        apply subvalues_inv in Hu
          as [->|(? & ? & ? & c & [= <- <- <-] & Hc & Hu)].
        { simpl. apply bool_decide_eq_false. by rewrite lookup_insert_eq. }
        apply covers_insert. eapply (Hclosed c u); [|by eapply visited_results_visited|done].
        by eapply subvalues_operand.
      * apply covers_insert. by eapply Hclosed.
    + exists r. simpl. by rewrite lookup_insert_eq.
  - apply subvalues_self.
  - split_and!; [done| |].
    + intros c Hc. by apply elem_of_nil in Hc.
    + intros v u _ Hv. by destruct v.
  - destruct Hrun as [(V' & [s' log] & ((-> & Hlog & Hclosed) & [r Hget] & _ & Hvis) & Hrun)
                     |(e & s' & [] & _)].
    exists r, s', log. split_and!.
    + unfold postvisitor. pose proof (Hrun (weight expr - n) []) as Hend.
      replace (n + (weight expr - n)) with (weight expr) in Hend by lia.
      change ([expr] ++ []) with [expr] in Hend.
      rewrite Hend, postvisitor_loop_nil. by rewrite Hget.
    + intros v Hv.
      pose proof (Hclosed expr v (subvalues_self expr) Hvis Hv)
        as (id & cls & operands & -> & [r' Hr'])%not_in_visited_false.
      apply memo_of_lookup in Hr' as (c & Hc & Hid & _).
      exists c. split; [done|]. specialize (Hlog c Hc).
      unfold call_id in Hid. destruct (call_node c) as [| | |id' cls' ops']; try done.
      injection Hid as ->.
      by destruct (Hco id cls operands cls' ops' Hv Hlog) as [<- <-].
    + done.
Qed.

(** X7.  A traversal of a graph of Expressions with a visitor that returns
    calls the visitor on every node of the graph, at least once, and on
    nothing else. *)
Theorem postvisitor_visits_every_node {St R} (fn : @visitor St R) (kw : kwargs)
    (expr : pyval) (s : St) :
  coherent expr →
  (∀ v, v ∈ subvalues expr → isinstance_Expression v = true) →
  (∀ node o s0, ∃ r s1, fn node o kw s0 = (Ok r, s1)) →
  ∃ r s' log,
    postvisitor (weight expr) expr (traced fn) kw (s, []) = (Some (Ok r), (s', log)) ∧
    (∀ v, v ∈ subvalues expr → ∃ c, c ∈ log ∧ call_node c = v) ∧
    (∀ c, c ∈ log → call_node c ∈ subvalues expr).
Proof. apply traversal_covers. Qed.

(** ** Traversal of a tree *)

Lemma foldr_app_bind {A B} (f : A → list B) (l : list A) :
  foldr (λ x acc, f x ++ acc) [] l = l ≫= f.
Proof. induction l as [|x l IH]; [done|]. simpl. by rewrite IH. Qed.







Section tree.
Context {St R : Type} (fn : @visitor St R) (kw : kwargs).
Hypothesis fn_returns : ∀ node o s0, ∃ r s1, fn node o kw s0 = (Ok r, s1).



End tree.




(** X7 at [x + (x + y)]. *)
Lemma postvisitor_visits_every_node_witness :
  ∃ r s' log,
    postvisitor (weight shared_graph) shared_graph (traced unit_visitor) ∅ ((), [])
    = (Some (Ok r), (s', log)) ∧
    (∀ v, v ∈ subvalues shared_graph → ∃ c, c ∈ log ∧ call_node c = v) ∧
    (∀ c, c ∈ log → call_node c ∈ subvalues shared_graph).
Proof.
  apply (postvisitor_visits_every_node unit_visitor ∅ shared_graph ()).
  - exact shared_graph_coherent.
  - exact shared_graph_expressions.
  - intros node o s0. exists (), s0. reflexivity.
Defined.

(** ** Construction with any operands *)

Lemma Expression_init_stores operands n :
  ∃ l n', Expression_init operands n = (Ok l, n') ∧
          n' = n + length (filter (λ x, isinstance_Num x = true) operands) ∧
          Forall2 (λ x y, match x with
                          | PyNum k => ∃ id, n ≤ id < n' ∧ y = PyObj id (KNumber k) []
                          | _ => y = x
                          end) operands l.
Proof.
  revert n. induction operands as [|x rest IH]; intros n.
  { exists [], n. split_and!; [done|simpl; lia|constructor]. }
  simpl. unfold mbind, M_bind, bind. rewrite filter_cons.
  destruct x as [k|t| |id cls ops]; simpl.
  - destruct (IH (S n)) as (l & n' & -> & -> & Hl). eexists _, _. split; [done|].
    destruct (decide (true = true)) as [_|[]]; [|done]. simpl. split; [lia|].
    constructor; [exists n; split; [lia|done]|].
    eapply Forall2_impl; [exact Hl|]. intros x y. destruct x; try done.
    intros (id & Hid & ->). exists id. split; [lia|done].
  - destruct (IH n) as (l & n' & -> & -> & Hl). eexists _, _. split; [done|].
    destruct (decide (false = true)) as [[=]|_]. split; [done|]. by constructor.
  - destruct (IH n) as (l & n' & -> & -> & Hl). eexists _, _. split; [done|].
    destruct (decide (false = true)) as [[=]|_]. split; [done|]. by constructor.
  - destruct (IH n) as (l & n' & -> & -> & Hl). eexists _, _. split; [done|].
    destruct (decide (false = true)) as [[=]|_]. split; [done|]. by constructor.
Qed.

(** X9.  Calling an operator class never raises, whatever the number and
    the kind of its operands.  The node it builds keeps the operands in
    order: every host number is replaced by a new [Number] node that holds
    it, every other value, an Expression or not, is kept as it is; one
    identity is used for the node and one for each number boxed. *)
Theorem operator_construction (cls : kind) (operands : list pyval) (n : nat) :
  ∃ l n',
    new_operator cls operands n = (Ok (PyObj n cls l), n') ∧
    n' = S n + length (filter (λ x, isinstance_Num x = true) operands) ∧
    Forall2 (λ x y, match x with
                    | PyNum k => ∃ id, n < id < n' ∧ y = PyObj id (KNumber k) []
                    | _ => y = x
                    end) operands l.
Proof.
  unfold new_operator, mbind, M_bind, bind, fresh.
  destruct (Expression_init_stores operands (S n)) as (l & n' & -> & -> & Hl).
  exists l. eexists. split; [done|]. split; [done|].
  eapply Forall2_impl; [exact Hl|]. intros x y. by destruct x.
Qed.

(** ** The graph of a derivative *)

Lemma heap_ok_alloc n vs cls operands :
  heap_ok n vs →
  (∀ child, child ∈ operands → child ∈ objects vs) →
  heap_ok (S n) (PyObj n cls operands :: vs).
Proof.
  intros Hok Hops. apply heap_ok_new; [apply (heap_ok_mono n); [lia|done]|lia| |].
  - intros id cls' ops' Hin. destruct Hok as [Hlt _]. specialize (Hlt _ _ _ Hin). lia.
  - intros v (c & Hv & Hc)%elem_of_objects. eapply objects_closed; [|done]. by apply Hops.
Qed.

Lemma objects_cons_old v vs w : w ∈ objects vs → w ∈ objects (v :: vs).
Proof. intros H. rewrite objects_cons. apply elem_of_app. by right. Qed.

Lemma objects_cons_new v vs : v ∈ objects (v :: vs).
Proof. rewrite objects_cons. apply elem_of_app. left. apply subvalues_self. Qed.

(** A rule applied to a node and to results the program holds builds its
    result over them, with identities not used before. *)
Lemma differentiate_allocates vs id cls operands t results kw var n :
  heap_ok n vs →
  PyObj id cls operands ∈ objects vs →
  as_expr (PyObj id cls operands) = Some t →
  Forall2 (λ _ r, isinstance_Expression r = true ∧ r ∈ objects vs) operands results →
  kw !! "var" = Some var →
  ∃ r n' vs',
    differentiate (PyObj id cls operands) results kw n = (Ok r, n') ∧
    heap_ok n' vs' ∧ r ∈ objects vs' ∧ ∀ v, v ∈ objects vs → v ∈ objects vs'.
Proof.
  intros Hok Hin Ht Hres Hvar.
  assert (∀ child, child ∈ operands → child ∈ objects vs) as Hops.
  { intros child Hc. eapply objects_closed; [exact Hin|].
    eapply subvalues_operand_le; [done|apply subvalues_self]. }
  destruct cls as [value|value| | | | | |name];
    destruct operands as [|a [|b [|]]]; simpl in Ht; try discriminate Ht.
  - eexists _, _, _. split; [apply differentiate_Number|].
    split_and!; [apply heap_ok_alloc; [done|]|apply objects_cons_new|apply objects_cons_old].
    intros c Hc. by apply elem_of_nil in Hc.
  - eexists _, _, _. split; [by apply differentiate_Symbol|].
    split_and!; [apply heap_ok_alloc; [done|]|apply objects_cons_new|apply objects_cons_old].
    intros c Hc. by apply elem_of_nil in Hc.
  - apply Forall2_cons_inv_l in Hres as (c0 & ? & [H0 Hv0] & Hres & ->).
    apply Forall2_cons_inv_l in Hres as (c1 & ? & [H1 Hv1] & Hres & ->).
    apply Forall2_nil_inv_l in Hres as ->.
    eexists _, _, _. split; [by apply differentiate_Add|].
    split_and!; [apply heap_ok_alloc; [done|]|apply objects_cons_new|apply objects_cons_old].
    intros c Hc. repeat (apply elem_of_cons in Hc as [->|Hc]); try done.
    by apply elem_of_nil in Hc.
  - apply Forall2_cons_inv_l in Hres as (c0 & ? & [H0 Hv0] & Hres & ->).
    apply Forall2_cons_inv_l in Hres as (c1 & ? & [H1 Hv1] & Hres & ->).
    apply Forall2_nil_inv_l in Hres as ->.
    eexists _, _, _. split; [by apply differentiate_Sub|].
    split_and!; [apply heap_ok_alloc; [done|]|apply objects_cons_new|apply objects_cons_old].
    intros c Hc. repeat (apply elem_of_cons in Hc as [->|Hc]); try done.
    by apply elem_of_nil in Hc.
  - apply Forall2_cons_inv_l in Hres as (c0 & ? & [H0 Hv0] & Hres & ->).
    apply Forall2_cons_inv_l in Hres as (c1 & ? & [H1 Hv1] & Hres & ->).
    apply Forall2_nil_inv_l in Hres as ->.
    destruct (as_expr a) as [ta|] eqn:Ha; [|done].
    destruct (as_expr b) as [tb|] eqn:Hb; [|done].
    pose proof (Hops a ltac:(left)) as Hva.
    pose proof (Hops b ltac:(right; left)) as Hvb.
    set (vs1 := PyObj n KMul [c0; b] :: vs).
    set (vs2 := PyObj (n + 1) KMul [c1; a] :: vs1).
    assert (heap_ok (n + 1) vs1) as Hok1.
    { replace (n + 1) with (S n) by lia. apply heap_ok_alloc; [done|].
      intros c Hc. repeat (apply elem_of_cons in Hc as [->|Hc]); try done.
      by apply elem_of_nil in Hc. }
    assert (heap_ok (n + 2) vs2) as Hok2.
    { replace (n + 2) with (S (n + 1)) by lia. apply heap_ok_alloc; [done|].
      intros c Hc. repeat (apply elem_of_cons in Hc as [->|Hc]);
        try (by apply elem_of_nil in Hc); by apply objects_cons_old. }
    exists (PyObj (n + 2) KAdd [PyObj n KMul [c0; b]; PyObj (n + 1) KMul [c1; a]]),
      (n + 3), (PyObj (n + 2) KAdd [PyObj n KMul [c0; b]; PyObj (n + 1) KMul [c1; a]] :: vs2).
    split; [apply differentiate_Mul; by eauto using as_expr_object|].
    split_and!.
    + replace (n + 3) with (S (n + 2)) by lia. apply heap_ok_alloc; [done|].
      intros c Hc. repeat (apply elem_of_cons in Hc as [->|Hc]);
        try (by apply elem_of_nil in Hc).
      * apply objects_cons_old, objects_cons_new.
      * apply objects_cons_new.
    + apply objects_cons_new.
    + intros v Hv. by do 3 apply objects_cons_old.
  - apply Forall2_cons_inv_l in Hres as (c0 & ? & [H0 Hv0] & Hres & ->).
    apply Forall2_cons_inv_l in Hres as (c1 & ? & [H1 Hv1] & Hres & ->).
    apply Forall2_nil_inv_l in Hres as ->.
    destruct (as_expr a) as [ta|] eqn:Ha; [|done].
    destruct (as_expr b) as [tb|] eqn:Hb; [|done].
    pose proof (Hops a ltac:(left)) as Hva.
    pose proof (Hops b ltac:(right; left)) as Hvb.
    set (vs1 := PyObj n KMul [c0; b] :: vs).
    set (vs2 := PyObj (n + 1) KMul [c1; a] :: vs1).
    set (vs3 := PyObj (n + 2) KSub [PyObj n KMul [c0; b]; PyObj (n + 1) KMul [c1; a]] :: vs2).
    set (vs4 := PyObj (n + 3) (KNumber (NInt 2)) [] :: vs3).
    set (vs5 := PyObj (n + 4) KPow [b; PyObj (n + 3) (KNumber (NInt 2)) []] :: vs4).
    assert (heap_ok (n + 1) vs1) as Hok1.
    { replace (n + 1) with (S n) by lia. apply heap_ok_alloc; [done|].
      intros c Hc. repeat (apply elem_of_cons in Hc as [->|Hc]); try done.
      by apply elem_of_nil in Hc. }
    assert (heap_ok (n + 2) vs2) as Hok2.
    { replace (n + 2) with (S (n + 1)) by lia. apply heap_ok_alloc; [done|].
      intros c Hc. repeat (apply elem_of_cons in Hc as [->|Hc]);
        try (by apply elem_of_nil in Hc); by apply objects_cons_old. }
    assert (heap_ok (n + 3) vs3) as Hok3.
    { replace (n + 3) with (S (n + 2)) by lia. apply heap_ok_alloc; [done|].
      intros c Hc. repeat (apply elem_of_cons in Hc as [->|Hc]);
        try (by apply elem_of_nil in Hc).
      - apply objects_cons_old, objects_cons_new.
      - apply objects_cons_new. }
    assert (heap_ok (n + 4) vs4) as Hok4.
    { replace (n + 4) with (S (n + 3)) by lia. apply heap_ok_alloc; [done|].
      intros c Hc. by apply elem_of_nil in Hc. }
    assert (heap_ok (n + 5) vs5) as Hok5.
    { replace (n + 5) with (S (n + 4)) by lia. apply heap_ok_alloc; [done|].
      intros c Hc. repeat (apply elem_of_cons in Hc as [->|Hc]);
        try (by apply elem_of_nil in Hc).
      - by do 4 apply objects_cons_old.
      - apply objects_cons_new. }
    exists (PyObj (n + 5) KDiv
              [PyObj (n + 2) KSub [PyObj n KMul [c0; b]; PyObj (n + 1) KMul [c1; a]];
               PyObj (n + 4) KPow [b; PyObj (n + 3) (KNumber (NInt 2)) []]]),
      (n + 6),
      (PyObj (n + 5) KDiv
         [PyObj (n + 2) KSub [PyObj n KMul [c0; b]; PyObj (n + 1) KMul [c1; a]];
          PyObj (n + 4) KPow [b; PyObj (n + 3) (KNumber (NInt 2)) []]] :: vs5).
    split; [apply differentiate_Div; by eauto using as_expr_object|].
    split_and!.
    + replace (n + 6) with (S (n + 5)) by lia. apply heap_ok_alloc; [done|].
      intros c Hc. repeat (apply elem_of_cons in Hc as [->|Hc]);
        try (by apply elem_of_nil in Hc).
      * do 2 apply objects_cons_old. apply objects_cons_new.
      * apply objects_cons_new.
    + apply objects_cons_new.
    + intros v Hv. by do 6 apply objects_cons_old.
  - apply Forall2_cons_inv_l in Hres as (c0 & ? & [H0 Hv0] & Hres & ->).
    apply Forall2_cons_inv_l in Hres as (c1 & ? & [H1 Hv1] & Hres & ->).
    apply Forall2_nil_inv_l in Hres as ->.
    destruct (as_expr a) as [ta|] eqn:Ha; [|done].
    destruct (as_expr b) as [tb|] eqn:Hb; [|done].
    pose proof (Hops a ltac:(left)) as Hva.
    pose proof (Hops b ltac:(right; left)) as Hvb.
    set (vs1 := PyObj n (KNumber (NInt 1)) [] :: vs).
    set (vs2 := PyObj (n + 1) KSub [b; PyObj n (KNumber (NInt 1)) []] :: vs1).
    set (vs3 := PyObj (n + 2) KPow
                  [a; PyObj (n + 1) KSub [b; PyObj n (KNumber (NInt 1)) []]] :: vs2).
    assert (heap_ok (n + 1) vs1) as Hok1.
    { replace (n + 1) with (S n) by lia. apply heap_ok_alloc; [done|].
      intros c Hc. by apply elem_of_nil in Hc. }
    assert (heap_ok (n + 2) vs2) as Hok2.
    { replace (n + 2) with (S (n + 1)) by lia. apply heap_ok_alloc; [done|].
      intros c Hc. repeat (apply elem_of_cons in Hc as [->|Hc]);
        try (by apply elem_of_nil in Hc).
      - by apply objects_cons_old.
      - apply objects_cons_new. }
    assert (heap_ok (n + 3) vs3) as Hok3.
    { replace (n + 3) with (S (n + 2)) by lia. apply heap_ok_alloc; [done|].
      intros c Hc. repeat (apply elem_of_cons in Hc as [->|Hc]);
        try (by apply elem_of_nil in Hc).
      - by do 2 apply objects_cons_old.
      - apply objects_cons_new. }
    exists (PyObj (n + 3) KMul
              [b; PyObj (n + 2) KPow
                    [a; PyObj (n + 1) KSub [b; PyObj n (KNumber (NInt 1)) []]]]),
      (n + 4),
      (PyObj (n + 3) KMul
         [b; PyObj (n + 2) KPow
               [a; PyObj (n + 1) KSub [b; PyObj n (KNumber (NInt 1)) []]]] :: vs3).
    split; [apply differentiate_Pow; by eauto using as_expr_object|].
    split_and!.
    + replace (n + 4) with (S (n + 3)) by lia. apply heap_ok_alloc; [done|].
      intros c Hc. repeat (apply elem_of_cons in Hc as [->|Hc]);
        try (by apply elem_of_nil in Hc).
      * by do 3 apply objects_cons_old.
      * apply objects_cons_new.
    + apply objects_cons_new.
    + intros v Hv. by do 4 apply objects_cons_old.
Qed.

(** X11.  The derivative [postvisitor] returns is a graph like those the
    constructors build: its nodes are new, with identities not used before,
    or nodes of the expression differentiated, which it shares; one
    identity denotes one node.  It can therefore be differentiated again,
    and the second traversal returns the second derivative. *)
Theorem differentiate_twice (root : pyval) (t : expr) (var : string)
    (kw : kwargs) (n : nat) :
  heap_ok n [root] →
  as_expr root = Some t →
  kw !! "var" = Some (PyStr var) →
  ∃ r1 n1 r2 n2,
    postvisitor (weight root) root differentiate kw n = (Some (Ok r1), n1) ∧
    heap_ok n1 [r1; root] ∧
    as_expr r1 = Some (derivative var t) ∧
    postvisitor (weight r1) r1 differentiate kw n1 = (Some (Ok r2), n2) ∧
    as_expr r2 = Some (derivative var (derivative var t)).
Proof.
  intros Hok Ht Hvar.
  assert (coherent root) as Hco by (eapply heap_ok_coherent; [exact Hok|by left]).
  destruct (finishes_entry differentiate kw (λ _ _, False)
              (λ v, v ∈ subvalues root)
              (λ V m, derivatives_memoized root var V m ∧
                      ∃ vs, heap_ok m vs ∧ root ∈ objects vs ∧
                            ∀ id r, V !! id = Some r → r ∈ objects vs)
              (λ _ _ _, True))
    with (node := root) (V := (∅ : gmap ident pyval)) (s := n)
    as (m & Hm & Hrun).
  - intros id cls operands child Hin Hc. by eapply subvalues_operand.
  - intros v V s Hv Hf. destruct (as_expr_subvalues root t v Ht Hv) as [tv Htv].
    apply as_expr_object in Htv. congruence.
  - intros id cls operands V s results Hin [HI (vs & Hvs & Hroot & Htable)] Hres.
    destruct (as_expr_subvalues root t _ Ht Hin) as [tn Htn].
    destruct (differentiate_allocates vs id cls operands tn results kw (PyStr var) s)
      as (r & n' & vs' & Heq & Hvs' & Hr & Hsub); [done| |done| |done|].
    { by eapply objects_closed. }
    { eapply Forall2_impl; [by apply Forall2_elem_of_l, visited_results_Forall2|].
      intros child r [Hc Hget].
      destruct (HI child r) as (tc & _ & Hd); [by eapply subvalues_operand|done|].
      split; [by eapply as_expr_object|].
      destruct child as [| | |cid ccls cops]; try done. by eapply Htable. }
    pose proof (differentiate_visit root var kw Hco Hvar id cls operands V s results
                  Hin (as_expr_node_ok _ _ Htn) HI Hres) as Hv.
    rewrite Heq in Hv |- *. split; [split; [done|]|done].
    exists vs'. split_and!; [done|by apply Hsub|].
    intros id' r'. destruct (decide (id = id')) as [<-|Hne].
    + rewrite lookup_insert_eq. by intros [= <-].
    + rewrite lookup_insert_ne by done. intros H. by eapply Hsub, Htable.
  - apply subvalues_self.
  - split; [by intros v r _ Hget; destruct v|].
    exists [root]. split_and!; [done|apply objects_cons_new|done].
  - destruct Hrun as [(V' & n1 & ((HI & vs & Hvs & Hroot & Htable) & _ & _ & Hvis) & Hrun)
                     |(e & s' & [] & _)].
    pose proof (Hrun (weight root - m) []) as Hend.
    replace (m + (weight root - m)) with (weight root) in Hend by lia.
    change ([root] ++ []) with [root] in Hend.
    apply not_in_visited_false in Hvis as (id & cls & operands & Heq & [r1 Hr1]).
    destruct (HI root r1 (subvalues_self root)) as (t' & Ht' & Hd1);
      [by rewrite Heq|].
    assert (t' = t) as -> by congruence.
    assert (r1 ∈ objects vs) as Hr1in by by eapply Htable.
    assert (heap_ok n1 [r1; root]) as Hok1.
    { eapply heap_ok_subseteq; [|exact Hvs]. intros v.
      rewrite !objects_cons. intros [Hv|[Hv|Hv]%elem_of_app]%elem_of_app.
      - exact (objects_closed vs r1 v Hr1in Hv).
      - exact (objects_closed vs root v Hroot Hv).
      - by apply elem_of_nil in Hv. }
    assert (coherent r1) as Hco1 by (eapply heap_ok_coherent; [exact Hok1|by left]).
    destruct (differentiate_fold r1 var kw Hco1 Hvar n1)
      as (n2 & [(r2 & t2 & Hrun2 & Ht2 & Hd2)|(id2 & name & ops & Hin & _)]).
    + intros v Hv. destruct (as_expr_subvalues r1 _ v Hd1 Hv) as [tv Htv].
      by eapply as_expr_node_ok.
    + exists r1, n1, r2, n2. split_and!; [|done|done|done|congruence].
      unfold postvisitor. rewrite Hend, postvisitor_loop_nil.
      by rewrite Heq; simpl; rewrite Hr1.
    + by destruct (as_expr_subvalues r1 _ _ Hd1 Hin).
Qed.

(** X11 at [x + (x + y)]. *)
Lemma differentiate_twice_witness :
  ∃ r1 n1 r2 n2,
    postvisitor (weight shared_graph) shared_graph differentiate
      {["var" := PyStr "x"]} 4 = (Some (Ok r1), n1) ∧
    heap_ok n1 [r1; shared_graph] ∧
    as_expr r1
    = Some (derivative "x" (EAdd (ESymbol "x") (EAdd (ESymbol "x") (ESymbol "y")))) ∧
    postvisitor (weight r1) r1 differentiate {["var" := PyStr "x"]} n1
    = (Some (Ok r2), n2) ∧
    as_expr r2
    = Some (derivative "x"
              (derivative "x" (EAdd (ESymbol "x") (EAdd (ESymbol "x") (ESymbol "y"))))).
Proof.
  apply (differentiate_twice shared_graph
           (EAdd (ESymbol "x") (EAdd (ESymbol "x") (ESymbol "y"))) "x"
           {["var" := PyStr "x"]} 4).
  - split.
    + intros id cls ops H. unfold objects in H. simpl in H.
      repeat (apply elem_of_cons in H as [[= -> _ _]|H]); try lia.
      by apply elem_of_nil in H.
    + intros id c1 o1 c2 o2 H1 H2.
      apply (shared_graph_coherent id c1 o1 c2 o2).
      * exact H1.
      * exact H2.
  - reflexivity.
  - reflexivity.
Defined.

(** ** Differentiation without the variable *)

Lemma derivative_symbol_free var var' t :
  symbol_free t = true → derivative var t = derivative var' t.
Proof.
  induction t as [| |a IHa b IHb|a IHa b IHb|a IHa b IHb|a IHa b IHb|a IHa b IHb];
    simpl; try done; intros [Ha Hb]%andb_true_iff;
    by rewrite ?(IHa Ha), ?(IHb Hb).
Qed.

Lemma symbol_free_subvalues root t id value operands :
  as_expr root = Some t → symbol_free t = true →
  PyObj id (KSymbol value) operands ∉ subvalues root.
Proof.
  remember (weight root) as n eqn:Hn. revert root t Hn.
  induction (lt_wf n) as [n _ IH]. intros root t -> Ht Hfree Hin.
  apply subvalues_inv in Hin as [<-|(id' & cls & ops & c & -> & Hc & Hin)].
  { destruct operands as [|? ?]; simpl in Ht; [|done]. by injection Ht as <-. }
  destruct cls, ops as [|a [|b [|]]]; simpl in Ht; try discriminate Ht;
    try (by apply elem_of_nil in Hc);
    destruct (as_expr a) as [ta|] eqn:Ha; try discriminate Ht;
    destruct (as_expr b) as [tb|] eqn:Hb; try discriminate Ht;
    injection Ht as <-; simpl in Hfree; apply andb_true_iff in Hfree as [Hfa Hfb];
    apply elem_of_cons in Hc as [->|Hc];
    try (eapply (IH _ (weight_operand _ _ _ _ ltac:(left)) a ta eq_refl Ha Hfa); exact Hin);
    apply elem_of_cons in Hc as [->|Hc]; try (by apply elem_of_nil in Hc);
    eapply (IH _ (weight_operand _ _ _ _ ltac:(right; left)) b tb eq_refl Hb Hfb); exact Hin.
Qed.

Lemma memoized_insert {R} (root : pyval) (Q : pyval → R → Prop)
    (V : gmap ident R) id cls operands r :
  coherent root →
  (∀ v r0, v ∈ subvalues root → visited_get V v = Some r0 → Q v r0) →
  PyObj id cls operands ∈ subvalues root →
  Q (PyObj id cls operands) r →
  ∀ v r0, v ∈ subvalues root → visited_get (<[id := r]> V) v = Some r0 → Q v r0.
Proof.
  intros Hco HI Hin HQ v r0 Hv Hget.
  destruct v as [| | |id' cls' operands']; try done. simpl in Hget.
  destruct (decide (id = id')) as [<-|Hne].
  - rewrite lookup_insert_eq in Hget. injection Hget as <-.
    by destruct (Hco id cls operands cls' operands' Hin Hv) as [<- <-].
  - rewrite lookup_insert_ne in Hget by done. by apply (HI _ _ Hv).
Qed.

Section without_var.
Context (root : pyval) (kw : kwargs).
Hypothesis root_coherent : coherent root.
Hypothesis kw_no_var : kw !! "var" = None.

Lemma differentiate_visit_without_var id cls operands t V n results :
  PyObj id cls operands ∈ subvalues root →
  as_expr (PyObj id cls operands) = Some t →
  (∀ v r, v ∈ subvalues root → visited_get V v = Some r →
     ∃ tv, as_expr v = Some tv ∧ symbol_free tv = true ∧
           as_expr r = Some (derivative "" tv)) →
  visited_results V operands = Some results →
  match differentiate (PyObj id cls operands) results kw n with
  | (Ok r, _) => symbol_free t = true ∧ as_expr r = Some (derivative "" t)
  | (Raise e, _) => e = TypeError ∧ ∃ value, cls = KSymbol value
  end.
Proof.
  intros Hin Ht HI Hres.
  assert (Forall2 (λ child r, ∃ tc, as_expr child = Some tc ∧ symbol_free tc = true ∧
                     as_expr r = Some (derivative "" tc)) operands results) as Hch.
  { eapply Forall2_impl.
    - by apply Forall2_elem_of_l, visited_results_Forall2.
    - intros child r [Hc Hget]. apply (HI child r); [|done].
      by eapply subvalues_operand. }
  destruct cls as [value|value| | | | | |name];
    destruct operands as [|a [|b [|]]]; simpl in Ht; try discriminate Ht.
  - injection Ht as <-. by rewrite differentiate_Number.
  - unfold differentiate. rewrite kw_no_var. split; [done|by eexists].
  - apply Forall2_cons_inv_l in Hch as (c0 & ? & (ta & Ha & Hfa & H0) & Hch & ->).
    apply Forall2_cons_inv_l in Hch as (c1 & ? & (tb & Hb & Hfb & H1) & Hch & ->).
    apply Forall2_nil_inv_l in Hch as ->.
    rewrite Ha, Hb in Ht. injection Ht as <-.
    rewrite differentiate_Add by by eapply as_expr_object.
    simpl. by rewrite Hfa, Hfb, H0, H1.
  - apply Forall2_cons_inv_l in Hch as (c0 & ? & (ta & Ha & Hfa & H0) & Hch & ->).
    apply Forall2_cons_inv_l in Hch as (c1 & ? & (tb & Hb & Hfb & H1) & Hch & ->).
    apply Forall2_nil_inv_l in Hch as ->.
    rewrite Ha, Hb in Ht. injection Ht as <-.
    rewrite differentiate_Sub by by eapply as_expr_object.
    simpl. by rewrite Hfa, Hfb, H0, H1.
  - apply Forall2_cons_inv_l in Hch as (c0 & ? & (ta & Ha & Hfa & H0) & Hch & ->).
    apply Forall2_cons_inv_l in Hch as (c1 & ? & (tb & Hb & Hfb & H1) & Hch & ->).
    apply Forall2_nil_inv_l in Hch as ->.
    rewrite Ha, Hb in Ht. injection Ht as <-.
    rewrite differentiate_Mul by by eapply as_expr_object.
    simpl. by rewrite Hfa, Hfb, H0, H1, Ha, Hb.
  - apply Forall2_cons_inv_l in Hch as (c0 & ? & (ta & Ha & Hfa & H0) & Hch & ->).
    apply Forall2_cons_inv_l in Hch as (c1 & ? & (tb & Hb & Hfb & H1) & Hch & ->).
    apply Forall2_nil_inv_l in Hch as ->.
    rewrite Ha, Hb in Ht. injection Ht as <-.
    rewrite differentiate_Div by by eapply as_expr_object.
    simpl. by rewrite Hfa, Hfb, H0, H1, Ha, Hb.
  - apply Forall2_cons_inv_l in Hch as (c0 & ? & (ta & Ha & Hfa & H0) & Hch & ->).
    apply Forall2_cons_inv_l in Hch as (c1 & ? & (tb & Hb & Hfb & H1) & Hch & ->).
    apply Forall2_nil_inv_l in Hch as ->.
    rewrite Ha, Hb in Ht. injection Ht as <-.
    rewrite differentiate_Pow by by eapply as_expr_object.
    simpl. by rewrite Hfa, Hfb, Ha, Hb.
Qed.

End without_var.

(** X12.  When [postvisitor(expr, differentiate)] is called without the
    keyword [var], an expression in which a [Symbol] occurs raises
    [TypeError], and an expression of numbers only is differentiated as with
    any variable. *)
Theorem differentiate_without_var (root : pyval) (t : expr) (kw : kwargs)
    (n : nat) :
  coherent root →
  as_expr root = Some t →
  kw !! "var" = None →
  if symbol_free t
  then ∃ r n', postvisitor (weight root) root differentiate kw n = (Some (Ok r), n') ∧
               ∀ var, as_expr r = Some (derivative var t)
  else ∃ n', postvisitor (weight root) root differentiate kw n
             = (Some (Raise TypeError), n').
Proof.
  intros Hco Ht Hvar.
  destruct (finishes_entry differentiate kw
              (λ e _, e = TypeError ∧
                      ∃ id value ops, PyObj id (KSymbol value) ops ∈ subvalues root)
              (λ v, v ∈ subvalues root)
              (λ V _, ∀ v r, v ∈ subvalues root → visited_get V v = Some r →
                 ∃ tv, as_expr v = Some tv ∧ symbol_free tv = true ∧
                       as_expr r = Some (derivative "" tv))
              (λ _ _ _, True))
    with (node := root) (V := (∅ : gmap ident pyval)) (s := n)
    as (m & Hm & Hrun).
  - intros id cls operands child Hin Hc. by eapply subvalues_operand.
  - intros v V s Hv Hf. destruct (as_expr_subvalues root t v Ht Hv) as [tv Htv].
    apply as_expr_object in Htv. congruence.
  - intros id cls operands V s results Hin HI Hres.
    destruct (as_expr_subvalues root t _ Ht Hin) as [tn Htn].
    pose proof (differentiate_visit_without_var root kw Hvar id cls operands tn V s
                  results Hin Htn HI Hres) as Hv.
    destruct (differentiate _ _ _ _) as [[r|e] s'].
    + destruct Hv as [Hfree Hd]. split; [|done].
      apply (memoized_insert root
               (λ v r0, ∃ tv, as_expr v = Some tv ∧ symbol_free tv = true ∧
                              as_expr r0 = Some (derivative "" tv))
               V id cls operands r Hco HI Hin). by exists tn.
    + destruct Hv as [-> [value ->]]. split; [done|]. by exists id, value, operands.
  - apply subvalues_self.
  - by intros v r _ Hget; destruct v.
  - pose proof (Hrun) as Hrun'.
    destruct Hrun as [(V' & n' & (HI & _ & _ & Hvis) & Hrun)
                     |(e & n' & (-> & id & value & ops & Hin) & Hrun)].
    + pose proof (Hrun (weight root - m) []) as Hend.
      replace (m + (weight root - m)) with (weight root) in Hend by lia.
      change ([root] ++ []) with [root] in Hend.
      apply not_in_visited_false in Hvis as (id & cls & operands & Heq & [r Hr]).
      destruct (HI root r (subvalues_self root)) as (t' & Ht' & Hfree & Hd);
        [by rewrite Heq|].
      assert (t' = t) as -> by congruence. rewrite Hfree.
      exists r, n'. split.
      * unfold postvisitor. rewrite Hend, postvisitor_loop_nil.
        by rewrite Heq; simpl; rewrite Hr.
      * intros var. by rewrite (derivative_symbol_free var "" t Hfree).
    + pose proof (Hrun (weight root - m) []) as Hend.
      replace (m + (weight root - m)) with (weight root) in Hend by lia.
      change ([root] ++ []) with [root] in Hend.
      destruct (symbol_free t) eqn:Hfree.
      * by destruct (symbol_free_subvalues root t id value ops Ht Hfree).
      * exists n'. unfold postvisitor. by rewrite Hend.
Qed.

(** X12 at [x + y] and at [Number(1) + Number(2)]. *)
Lemma differentiate_without_var_witness :
  (∃ n', postvisitor (weight x_plus_y) x_plus_y differentiate ∅ 3
         = (Some (Raise TypeError), n')) ∧
  (∃ r n', postvisitor (weight (PyObj 2 KAdd [PyObj 0 (KNumber (NInt 1)) [];
                                               PyObj 1 (KNumber (NInt 2)) []]))
             (PyObj 2 KAdd [PyObj 0 (KNumber (NInt 1)) []; PyObj 1 (KNumber (NInt 2)) []])
             differentiate ∅ 3 = (Some (Ok r), n') ∧
           ∀ var, as_expr r
                  = Some (derivative var (EAdd (ENumber (NInt 1)) (ENumber (NInt 2))))).
Proof.
  split.
  - apply (differentiate_without_var x_plus_y (EAdd (ESymbol "x") (ESymbol "y")) ∅ 3).
    + exact x_plus_y_coherent.
    + reflexivity.
    + reflexivity.
  - apply (differentiate_without_var
             (PyObj 2 KAdd [PyObj 0 (KNumber (NInt 1)) []; PyObj 1 (KNumber (NInt 2)) []])
             (EAdd (ENumber (NInt 1)) (ENumber (NInt 2))) ∅ 3).
    + intros id cls1 ops1 cls2 ops2 H1 H2. simpl in H1, H2.
      repeat (apply elem_of_cons in H1 as [H1|H1]);
        repeat (apply elem_of_cons in H2 as [H2|H2]);
        try (by apply elem_of_nil in H1); try (by apply elem_of_nil in H2);
        by simplify_eq.
    + reflexivity.
    + reflexivity.
Defined.

(** ** The number of calls *)

Lemma weight_subvalue root v : v ∈ subvalues root → weight v ≤ weight root.
Proof.
  remember (weight root) as n eqn:Hn. revert root Hn.
  induction (lt_wf n) as [n _ IH]. intros root -> Hv.
  apply subvalues_inv in Hv as [->|(id & cls & ops & c & -> & Hc & Hv)]; [done|].
  pose proof (weight_operand id cls ops c Hc) as Hlt.
  specialize (IH _ Hlt c eq_refl Hv). lia.
Qed.

Lemma elem_of_identities root id cls operands :
  PyObj id cls operands ∈ subvalues root → id ∈ identities root.
Proof.
  intros Hin. unfold identities. apply elem_of_list_to_set, list_elem_of_omap.
  by exists (PyObj id cls operands).
Qed.

Lemma operands_of_elem id cls operands l :
  PyObj id cls operands ∈ l →
  ∃ cls' operands', PyObj id cls' operands' ∈ l ∧ operands_of id l = operands'.
Proof.
  induction l as [|x l IH]; intros Hin; [by apply elem_of_nil in Hin|].
  destruct x as [| | |id' cls' ops'];
    try (apply elem_of_cons in Hin as [[=]|Hin];
         destruct (IH Hin) as (c & o & Ho & Heq); exists c, o;
         split; [by right|done]).
  simpl. destruct (decide (id' = id)) as [->|Hne].
  - exists cls', ops'. split; [by left|done].
  - apply elem_of_cons in Hin as [[= -> _ _]|Hin]; [done|].
    destruct (IH Hin) as (c & o & Ho & Heq). exists c, o. split; [by right|done].
Qed.

Lemma outdegree_node root id cls operands :
  coherent root → PyObj id cls operands ∈ subvalues root →
  outdegree root id = length operands.
Proof.
  intros Hco Hin. unfold outdegree.
  destruct (operands_of_elem id cls operands _ Hin) as (cls' & ops' & Hin' & ->).
  by destruct (Hco id cls operands cls' ops' Hin Hin') as [_ <-].
Qed.

Lemma sum_list_with_ext_in {A} (f g : A → nat) l :
  (∀ x, x ∈ l → f x = g x) → sum_list_with f l = sum_list_with g l.
Proof.
  induction l as [|x l IH]; intros H; [done|]. simpl.
  rewrite (H x ltac:(left)), IH; [done|]. intros y Hy. apply H. by right.
Qed.

Lemma sum_list_with_take_off {A} `{EqDecision A} (f g : A → nat) l x :
  NoDup l → x ∈ l → (∀ y, y ≠ x → g y = f y) →
  sum_list_with g l + f x = sum_list_with f l + g x.
Proof.
  intros Hnd Hx Hext. induction Hnd as [|y l Hy Hnd IH]; [by apply elem_of_nil in Hx|].
  simpl. apply elem_of_cons in Hx as [->|Hx].
  - rewrite (sum_list_with_ext_in g f l); [lia|].
    intros z Hz. apply Hext. by intros ->.
  - specialize (IH Hx). rewrite (Hext y); [lia|]. by intros ->.
Qed.

Lemma pending_empty {R} root : pending root (∅ : gmap ident R) = edges root.
Proof. unfold pending, edges. apply sum_list_with_ext_in. intros id _. by rewrite lookup_empty. Qed.

Lemma pending_insert_old {R} root (V : gmap ident R) id r :
  is_Some (V !! id) → pending root (<[id := r]> V) = pending root V.
Proof.
  intros [r0 Hr]. unfold pending. apply sum_list_with_ext_in. intros id' _.
  destruct (decide (id = id')) as [<-|Hne].
  - by rewrite lookup_insert_eq, Hr.
  - by rewrite lookup_insert_ne.
Qed.

Lemma pending_insert_new {R} root (V : gmap ident R) id r :
  V !! id = None → id ∈ identities root →
  pending root (<[id := r]> V) + outdegree root id = pending root V.
Proof.
  intros Hnone Hid. unfold pending.
  pose proof (sum_list_with_take_off
                (λ id0, match V !! id0 with None => outdegree root id0 | Some _ => 0 end)
                (λ id0, match <[id := r]> V !! id0 with
                        | None => outdegree root id0 | Some _ => 0 end)
                (elements (identities root)) id (NoDup_elements _)) as H.
  simpl in H. rewrite Hnone, lookup_insert_eq in H.
  assert (id ∈ elements (identities root)) as Hin by by apply elem_of_elements.
  assert (∀ y, y ≠ id →
            match <[id := r]> V !! y with None => outdegree root y | Some _ => 0 end
            = match V !! y with None => outdegree root y | Some _ => 0 end) as Hext.
  { intros y Hy. by rewrite lookup_insert_ne. }
  specialize (H Hin Hext). lia.
Qed.

Section bound.
Context {St R : Type} (fn : @visitor St R) (kw : kwargs) (root : pyval).
Hypothesis root_coherent : coherent root.
Hypothesis root_expressions :
  ∀ v, v ∈ subvalues root → isinstance_Expression v = true.
Hypothesis fn_returns : ∀ node o s0, ∃ r s1, fn node o kw s0 = (Ok r, s1).

Lemma runs_within_entries l :
  (∀ child, child ∈ l → ∀ V s log,
     operands_visited root V → runs_within fn kw root 1 [child] V s log) →
  ∀ V s log,
    operands_visited root V → runs_within fn kw root (length l) l V s log.
Proof.
  induction l as [|x l IH]; intros Hl V s log HV.
  { exists 0, V, s, []. split_and!; try done.
    - apply covers_refl.
    - intros c Hc. by apply elem_of_nil in Hc.
    - intros id Hid. by left.
    - intros k rest. by rewrite app_nil_r. }
  destruct (Hl x ltac:(left) V s log HV)
    as (n1 & V1 & s1 & calls1 & Hn1 & Hb1 & HV1 & Hc1 & Hx & Hids1 & Hrun1).
  destruct (IH (λ c Hc, Hl c ltac:(by right)) V1 s1 (log ++ calls1) HV1)
    as (n2 & V2 & s2 & calls2 & Hn2 & Hb2 & HV2 & Hc2 & Hl2 & Hids2 & Hrun2).
  exists (n1 + n2), V2, s2, (calls1 ++ calls2). split_and!.
  - simpl in *. lia.
  - rewrite length_app. simpl. lia.
  - done.
  - by eapply covers_trans.
  - intros c [->|Hc]%elem_of_cons; [apply Hc2, Hx; by left|by apply Hl2].
  - intros id [[Hid|(c & cls & ops & Hc & Hin)]%Hids1
              |(c & cls & ops & Hc & Hin)]%Hids2.
    + by left.
    + right. exists c, cls, ops. apply list_elem_of_singleton in Hc as ->.
      split; [by left|done].
    + right. exists c, cls, ops. split; [by right|done].
  - intros k rest. rewrite <- Nat.add_assoc.
    change ((x :: l) ++ rest) with ([x] ++ (l ++ rest)).
    by rewrite Hrun1, Hrun2, app_assoc.
Qed.

Lemma operands_visited_insert (V : gmap ident R) id cls operands r :
  PyObj id cls operands ∈ subvalues root →
  operands_visited root V →
  filter (λ child, not_in_visited V child) operands = [] →
  operands_visited root (<[id := r]> V).
Proof.
  intros Hin HV Hf id' cls' ops' child Hin' Hs Hc.
  apply covers_insert. destruct (decide (id = id')) as [<-|Hne].
  - destruct (root_coherent id cls operands cls' ops' Hin Hin') as [_ <-].
    destruct (not_in_visited V child) eqn:Hv; [|done].
    assert (child ∈ filter (λ child, not_in_visited V child) operands) as Hcf.
    { apply list_elem_of_filter. split; [by rewrite Hv|done]. }
    rewrite Hf in Hcf. by apply elem_of_nil in Hcf.
  - rewrite lookup_insert_ne in Hs by done. by eapply HV.
Qed.

Lemma runs_within_entry node :
  node ∈ subvalues root → ∀ V s log,
    operands_visited root V → runs_within fn kw root 1 [node] V s log.
Proof.
  remember (weight node) as w eqn:Hw. revert node Hw.
  induction (lt_wf w) as [w _ IH]. intros node -> Hin V s log HV.
  pose proof (root_expressions node Hin) as Hnode.
  destruct node as [| | |id cls operands]; try done.
  destruct (filter (λ child, not_in_visited V child) operands) as [|x l] eqn:Hf.
  { destruct (visited_results_is_Some V operands Hf) as [results Hres].
    destruct (fn_returns (PyObj id cls operands) results s) as (r & s1 & Hr).
    exists 1, (<[id := r]> V), s1, [Call (PyObj id cls operands) results kw (Ok r)].
    split_and!.
    - simpl. lia.
    - simpl. destruct (V !! id) as [r0|] eqn:Hid.
      + rewrite pending_insert_old by by eexists. lia.
      + pose proof (pending_insert_new root V id r Hid
                      (elem_of_identities _ _ _ _ Hin)). lia.
    - by eapply operands_visited_insert.
    - apply covers_insert.
    - intros c ->%list_elem_of_singleton. simpl.
      apply bool_decide_eq_false. by rewrite lookup_insert_eq.
    - intros j Hj. destruct (decide (id = j)) as [<-|Hne].
      + right. exists (PyObj id cls operands), cls, operands.
        split; [by left|apply subvalues_self].
      + left. by rewrite lookup_insert_ne in Hj.
    - intros k rest. simpl. by rewrite Hf, Hres, Hr. }
  assert (∀ child, child ∈ rev (x :: l) → child ∈ operands) as Hsub.
  { intros c Hc. rewrite elem_of_rev_iff, <- Hf in Hc.
    by apply list_elem_of_filter in Hc as [_ ?]. }
  assert (V !! id = None) as Hnone.
  { apply eq_None_not_Some. intros Hs.
    assert (x ∈ filter (λ child, not_in_visited V child) operands) as Hx
      by (rewrite Hf; by left).
    apply list_elem_of_filter in Hx as [Hx Hxo].
    rewrite (HV id cls operands x Hin Hs Hxo) in Hx. done. }
  destruct (runs_within_entries (rev (x :: l))) with (V := V) (s := s) (log := log)
    as (n1 & V1 & s1 & calls1 & Hn1 & Hb1 & HV1 & Hc1 & Hvis1 & Hids1 & Hrun1);
    [|done|].
  { intros c Hc V0 s0 log0 HV0. eapply IH; [|done| |done].
    - by apply weight_operand, Hsub.
    - eapply subvalues_operand; [exact Hin|by apply Hsub]. }
  assert (V1 !! id = None) as Hnone1.
  { apply eq_None_not_Some.
    intros [Hs|(c & cls' & ops' & Hc & Hin')]%Hids1; [by rewrite Hnone in Hs; destruct Hs|].
    apply Hsub in Hc.
    assert (PyObj id cls' ops' ∈ subvalues root) as Hin''.
    { eapply subvalues_trans; [|exact Hin'].
      eapply subvalues_operand; [exact Hin|done]. }
    destruct (root_coherent id cls operands cls' ops' Hin Hin'') as [<- <-].
    pose proof (weight_subvalue _ _ Hin') as Hle.
    pose proof (weight_operand id cls operands c Hc). lia. }
  assert (filter (λ child, not_in_visited V1 child) operands = []) as Hf1.
  { apply filter_not_in_visited_nil. intros c Hc.
    destruct (not_in_visited V c) eqn:Hvc; [|by apply Hc1].
    apply Hvis1. rewrite elem_of_rev_iff, <- Hf.
    apply list_elem_of_filter. split; [by rewrite Hvc|done]. }
  destruct (visited_results_is_Some V1 operands Hf1) as [results Hres].
  destruct (fn_returns (PyObj id cls operands) results s1) as (r & s2 & Hr).
  exists (S (n1 + 1)), (<[id := r]> V1), s2,
    (calls1 ++ [Call (PyObj id cls operands) results kw (Ok r)]).
  split_and!.
  - rewrite weight_rev, <- Hf in Hn1.
    pose proof (weight_filter (λ c, not_in_visited V c) operands). simpl. lia.
  - rewrite length_app. simpl.
    pose proof (pending_insert_new root V1 id r Hnone1 (elem_of_identities _ _ _ _ Hin)) as Hp.
    rewrite (outdegree_node root id cls operands root_coherent Hin) in Hp.
    pose proof (length_filter (λ child, not_in_visited V child) operands) as Hlen.
    rewrite Hf in Hlen. rewrite length_rev in Hb1. lia.
  - by eapply operands_visited_insert.
  - eapply covers_trans; [exact Hc1|apply covers_insert].
  - intros c ->%list_elem_of_singleton. simpl.
    apply bool_decide_eq_false. by rewrite lookup_insert_eq.
  - intros j Hj. destruct (decide (id = j)) as [<-|Hne].
    + right. exists (PyObj id cls operands), cls, operands.
      split; [by left|apply subvalues_self].
    + rewrite lookup_insert_ne in Hj by done.
      apply Hids1 in Hj as [Hj|(c & cls' & ops' & Hc & Hin')]; [by left|].
      right. exists (PyObj id cls operands), cls', ops'. split; [by left|].
      eapply subvalues_operand_le; [by apply Hsub|done].
  - intros k rest. change (S (n1 + 1) + k) with (S (n1 + 1 + k)).
    change ([PyObj id cls operands] ++ rest) with (PyObj id cls operands :: rest).
    assert (postvisitor_loop (S (n1 + 1 + k)) (traced fn) kw
              (PyObj id cls operands :: rest) V (s, log)
            = postvisitor_loop (n1 + 1 + k) (traced fn) kw
                (rev (x :: l) ++ PyObj id cls operands :: rest) V (s, log)) as ->.
    { simpl. by rewrite Hf. }
    rewrite <- Nat.add_assoc, Hrun1. simpl. rewrite Hf1, Hres, Hr. by rewrite app_assoc.
Qed.

End bound.

Lemma length_omap_le {A B} (f : A → option B) (l : list A) :
  length (omap f l) ≤ length l.
Proof.
  induction l as [|x l IH]; [done|].
  change (omap f (x :: l))
    with (match f x with Some y => y :: omap f l | None => omap f l end).
  destruct (f x); simpl; lia.
Qed.

Lemma size_list_to_set_le (l : list ident) :
  size (list_to_set l : gset ident) ≤ length l.
Proof.
  induction l as [|x l IH]; [done|]. simpl.
  rewrite size_union_alt, size_singleton.
  assert (list_to_set l ∖ {[x]} ⊆ (list_to_set l : gset ident)) as Hsub.
  { intros y Hy. by apply elem_of_difference in Hy as [? _]. }
  apply subseteq_size in Hsub. lia.
Qed.

(** X13.  A traversal of a graph of Expressions with a visitor that returns
    makes at least as many calls as the graph has distinct nodes and at
    most one call more than it has operand edges, every node object counted
    once.  The memo table does not prevent a second call on a shared node,
    but the operands of a node are pushed at most once. *)
Theorem postvisitor_calls_bound {St R} (fn : @visitor St R) (kw : kwargs)
    (expr : pyval) (s : St) :
  coherent expr →
  (∀ v, v ∈ subvalues expr → isinstance_Expression v = true) →
  (∀ node o s0, ∃ r s1, fn node o kw s0 = (Ok r, s1)) →
  ∃ r s' log,
    postvisitor (weight expr) expr (traced fn) kw (s, []) = (Some (Ok r), (s', log)) ∧
    size (identities expr) ≤ length log ∧
    length log ≤ 1 + edges expr.
Proof.
  intros Hco Hexpr Hfn.
  destruct (runs_within_entry fn kw expr Hco Hexpr Hfn expr (subvalues_self expr) ∅ s [])
    as (n & V' & s' & log & Hn & Hb & _ & _ & Hvis & _ & Hrun).
  { intros id cls operands child _ [r Hr]. by rewrite lookup_empty in Hr. }
  rewrite pending_empty in Hb.
  pose proof (Hvis expr ltac:(left)) as Hroot.
  apply not_in_visited_false in Hroot as (id & cls & operands & Heq & [r Hr]).
  assert (postvisitor (weight expr) expr (traced fn) kw (s, [])
          = (Some (Ok r), (s', log))) as Hpost.
  { unfold postvisitor. pose proof (Hrun (weight expr - n) []) as Hend.
    simpl in Hn. replace (n + (weight expr - n)) with (weight expr) in Hend by lia.
    change ([expr] ++ []) with [expr] in Hend.
    rewrite Hend, postvisitor_loop_nil. rewrite Heq. simpl. by rewrite Hr. }
  exists r, s', log. split_and!; [done| |lia].
  destruct (traversal_covers fn kw expr s Hco Hexpr Hfn) as (r0 & s0 & log0 & Hpost0 & Hcov & _).
  rewrite Hpost in Hpost0. injection Hpost0 as _ _ <-.
  etrans; [|apply (length_omap_le call_id log)].
  etrans; [|apply (size_list_to_set_le (omap call_id log))].
  apply subseteq_size. intros j Hj.
  apply elem_of_list_to_set, list_elem_of_omap in Hj as (v & Hv & Hvid).
  destruct (Hcov v Hv) as (c & Hc & Hcn).
  apply elem_of_list_to_set, list_elem_of_omap. exists c. split; [done|].
  unfold call_id. by rewrite Hcn.
Qed.

(** X13 at [x + (x + y)]. *)
Lemma postvisitor_calls_bound_witness :
  ∃ r s' log,
    postvisitor (weight shared_graph) shared_graph (traced unit_visitor) ∅ ((), [])
    = (Some (Ok r), (s', log)) ∧
    size (identities shared_graph) ≤ length log ∧
    length log ≤ 1 + edges shared_graph.
Proof.
  apply (postvisitor_calls_bound unit_visitor ∅ shared_graph ()).
  - exact shared_graph_coherent.
  - exact shared_graph_expressions.
  - intros node o s0. exists (), s0. reflexivity.
Defined.

(** ** The visitor as a fold *)

(** X14.  For a visitor that is a function of the node and of the results
    of its operands, and leaves its state alone, [postvisitor] returns what
    the naive recursion over the operands returns: the explicit stack, the
    memo table and the repeated calls on shared nodes do not show in the
    result. *)
Theorem postvisitor_is_recursive_visit {St R} (f : pyval → list R → R)
    (fn : @visitor St R) (kw : kwargs) (expr : pyval) (s : St) :
  coherent expr →
  (∀ v, v ∈ subvalues expr → isinstance_Expression v = true) →
  (∀ node o s0, fn node o kw s0 = (Ok (f node o), s0)) →
  postvisitor (weight expr) expr fn kw s = (Some (Ok (recursive_visit f expr)), s).
Proof.
  intros Hco Hexpr Hfn.
  destruct (finishes_entry fn kw (λ _ _, False)
              (λ v, v ∈ subvalues expr)
              (λ V s0, s0 = s ∧
                       ∀ v r, v ∈ subvalues expr → visited_get V v = Some r →
                              r = recursive_visit f v)
              (λ _ _ _, True))
    with (node := expr) (V := (∅ : gmap ident R)) (s := s) as (n & Hn & Hrun).
  - intros id cls operands child Hin Hc. by eapply subvalues_operand.
  - intros v V s0 Hv Hf. apply Hexpr in Hv. congruence.
  - intros id cls operands V s0 results Hin [-> HI] Hres. rewrite Hfn.
    split; [split; [done|]|done].
    apply (memoized_insert expr (λ v r, r = recursive_visit f v)
             V id cls operands _ Hco HI Hin).
    simpl. f_equal.
    apply visited_results_Forall2, Forall2_elem_of_l in Hres.
    assert (∀ c, c ∈ operands → c ∈ subvalues expr) as Hsub
      by (intros c Hc; by eapply subvalues_operand).
    clear Hin. induction Hres as [|c r l k [Hc Hget] _ IH]; [done|].
    simpl. f_equal; [|exact IH]. by apply (HI c r); [apply Hsub|].
  - apply subvalues_self.
  - split; [done|]. by intros v r _ Hget; destruct v.
  - destruct Hrun as [(V' & s' & ((-> & HI) & _ & _ & Hvis) & Hrun)|(e & s' & [] & _)].
    pose proof (Hrun (weight expr - n) []) as Hend.
    replace (n + (weight expr - n)) with (weight expr) in Hend by lia.
    change ([expr] ++ []) with [expr] in Hend.
    apply not_in_visited_false in Hvis as (id & cls & operands & Heq & [r Hr]).
    unfold postvisitor. rewrite Hend, postvisitor_loop_nil.
    assert (visited_get V' expr = Some r) as Hg by (by rewrite Heq).
    by rewrite Hg, (HI expr r (subvalues_self expr) Hg).
Qed.

(** X14 at [x + (x + y)], with the visitor that counts the nodes of the
    unfolded tree: the shared [x] counts twice, 5 in all. *)
Lemma postvisitor_is_recursive_visit_witness :
  postvisitor (weight shared_graph) shared_graph
    (λ node o _ s, (Ok (S (sum_list o)), s)) ∅ ()
  = (Some (Ok 5), ()).
Proof.
  apply (postvisitor_is_recursive_visit (λ _ o, S (sum_list o))
           (λ node o _ s, (Ok (S (sum_list o)), s)) ∅ shared_graph ()).
  - exact shared_graph_coherent.
  - exact shared_graph_expressions.
  - reflexivity.
Defined.
